(** * NetWeave: the road-network sketch cleaner (SIM/exec.py)

    A shallow embedding of [RoadNetworkCleaner.find_network_points],
    [RoadNetworkCleaner.remove_spurious_roads] and
    [RoadNetworkCleaner.get_path], with the numpy operations they use, and
    the properties of the topology analyzer and of the spurious path pruner.

    Conventions.
    - A 2-D boolean [ndarray] is the list of its rows.
    - A pixel coordinate is a pair of Python integers, hence [Z * Z]; the
      classification produces [(x, y)], the pathfinder talks [(y, x)].
    - Arrays are Python objects: they live in a heap and are passed around
      by reference.
    - [skimage.graph.route_through_array] is an external library routine;
      the development is parametric in it. *)

From stdpp Require Import base tactics option numbers list sorting gmap.
From Stdlib Require Import ZArith Lia.

Set Default Proof Using "Type".
Set Warnings "-clear-no-such-hyp".

(** ** numpy arrays *)

Module Np.

Abbreviation ndarray := (list (list bool)).

(** [a.shape[0]] and [a.shape[1]]; an array without rows is [[]], and its
    number of columns reads as 0. *)
Definition nrows (a : ndarray) : nat := length a.
Definition ncols (a : ndarray) : nat :=
  match a with [] => 0 | r :: _ => length r end.

(** Every ndarray is rectangular. *)
Definition rect (a : ndarray) : Prop :=
  Forall (λ r, length r = ncols a) a.

Global Instance rect_dec a : Decision (rect a).
Proof. unfold rect. apply _. Defined.

(** numpy's normalisation of one integer index against an axis of
    length [n]: negative indices count from the end, anything else
    out of range is an [IndexError] ([None]). *)
Definition norm_index (n : nat) (i : Z) : option nat :=
  if decide (0 ≤ i < Z.of_nat n)%Z then Some (Z.to_nat i)
  else if decide (- Z.of_nat n ≤ i < 0)%Z then Some (Z.to_nat (i + Z.of_nat n))
  else None.

(** [a[i, j]] *)
Definition getitem (a : ndarray) (i j : Z) : option bool :=
  i' ← norm_index (nrows a) i;
  row ← a !! i';
  j' ← norm_index (length row) j;
  row !! j'.

(** [a[i, j] = v]; [None] is the [IndexError]. *)
Definition setitem (a : ndarray) (i j : Z) (v : bool) : option ndarray :=
  i' ← norm_index (nrows a) i;
  row ← a !! i';
  j' ← norm_index (length row) j;
  Some (<[i' := <[j' := v]> row]> a).

(** [np.pad(a, pad_width=1, mode="constant", constant_values=0)] *)
Definition pad (a : ndarray) : ndarray :=
  let blank := replicate (ncols a + 2) false in
  blank :: ((λ r, false :: r ++ [false]) <$> a) ++ [blank].

(** [a[r0:r1, c0:c1]] for non-negative bounds; a slice is clipped to
    the array, it never raises. *)
Definition slice (a : ndarray) (r0 r1 c0 c1 : nat) : ndarray :=
  (λ r, take (c1 - c0) (drop c0 r)) <$> take (r1 - r0) (drop r0 a).

(** [a.sum()] of a boolean array: the number of [True] cells. *)
Definition b2z (b : bool) : Z := if b then 1%Z else 0%Z.
Definition sum (a : ndarray) : Z :=
  foldr (λ r acc, (foldr (λ b s, b2z b + s) 0 r + acc)%Z) 0%Z a.

(** [~a] of a boolean array. *)
Definition invert (a : ndarray) : ndarray := (λ r : list bool, negb <$> r) <$> a.

End Np.

Import Np.

(** ** Pixel coordinates *)

Definition point : Type := Z * Z.

(** ** The cleaner object *)

Record RoadNetworkCleaner := {
  min_road_length : Z;
  intersection_radius : Z;
  height : nat;
  width : nat
}.

(** [__init__] leaves [height] and [width] unset; [process_sketch] sets them
    from the shape of the sketch, which skeletonisation preserves. *)
Definition set_dimensions (self : RoadNetworkCleaner) (a : ndarray)
    : RoadNetworkCleaner :=
  {| min_road_length := min_road_length self;
     intersection_radius := intersection_radius self;
     height := nrows a; width := ncols a |}.

(** [self.min_road_length = t] *)
Definition with_min_road_length (t : Z) (self : RoadNetworkCleaner)
    : RoadNetworkCleaner :=
  {| min_road_length := t;
     intersection_radius := intersection_radius self;
     height := height self; width := width self |}.

(** A cleaner whose dimensions are those of the array [a]. *)
Definition fits (self : RoadNetworkCleaner) (a : ndarray) : Prop :=
  height self = nrows a ∧ width self = ncols a ∧ rect a.

Global Instance fits_dec self a : Decision (fits self a).
Proof. unfold fits. apply _. Defined.

(** ** Loops that may raise *)

(** [for x in xs: body], threading the loop state; [None] when the body
    raises and nothing catches it. *)
Fixpoint for_each {A S : Type} (xs : list A) (body : A → S → option S) (s : S)
    : option S :=
  match xs with
  | [] => Some s
  | x :: xs' => s' ← body x s; for_each xs' body s'
  end.

(** ** find_network_points *)

(** The result so far: [(endpoints, intersections)]. *)
Definition network_points : Type := list point * list point.

(** The body of the inner loop at padded position [(y, x)]. *)
Definition classify_pixel (padded : ndarray) (y x : nat) (acc : network_points)
    : option network_points :=
  v ← getitem padded (Z.of_nat y) (Z.of_nat x);
  if v : bool then
    let neighbors := (sum (slice padded (y - 1) (y + 2) (x - 1) (x + 2)) - 1)%Z in
    let p : point := (Z.of_nat x - 1, Z.of_nat y - 1)%Z in
    if decide (neighbors = 1%Z) then Some (acc.1 ++ [p], acc.2)
    else if decide (neighbors > 2)%Z then Some (acc.1, acc.2 ++ [p])
    else Some acc
  else Some acc.

Definition find_network_points (self : RoadNetworkCleaner) (skeleton : ndarray)
    : option network_points :=
  let padded := pad skeleton in
  for_each (seq 1 (height self))
    (λ y, for_each (seq 1 (width self)) (λ x, classify_pixel padded y x))
    ([], []).

(** ** Distances

    The floating-point values of [remove_spurious_roads] are [float("inf")]
    and [np.sqrt(n)] for an exact Python integer [n >= 0], and they are only
    ever compared: with one another and with the integer [min_road_length].
    They are kept symbolic.  IEEE square root is correctly rounded, so on
    radicands below [2^50] (rasters of less than [2^24] pixels a side) it is
    strictly increasing on integers and [np.sqrt(n) < t] is [n < t * t] for
    an integer [t > 0]; the comparisons below are exact there. *)

Inductive dist :=
  | Sqrt (n : Z)
  | Inf.

Definition dist_ltb (a b : dist) : bool :=
  match a, b with
  | Sqrt n, Sqrt m => bool_decide (n < m)%Z
  | Sqrt _, Inf => true
  | Inf, _ => false
  end.

(** [a < t] for a Python integer [t]. *)
Definition dist_lt_int (a : dist) (t : Z) : bool :=
  match a with
  | Sqrt n => bool_decide (0 < t ∧ n < t * t)%Z
  | Inf => false
  end.

(** [np.sqrt((p[0] - q[0]) ** 2 + (p[1] - q[1]) ** 2)] *)
Definition sq_dist (p q : point) : Z :=
  ((p.1 - q.1) ^ 2 + (p.2 - q.2) ^ 2)%Z.
Definition euclid (p q : point) : dist := Sqrt (sq_dist p q).

(** ** The heap of arrays and the observable events *)

Definition loc := positive.

Inductive event :=
  | Ev_route (start end_ : point)
      (** a call of [route_through_array], coordinates as [(y, x)] *)
  | Ev_setitem (py px : Z)
      (** the assignment [cleaned[py, px] = False], when it succeeds *)
  | Ev_print_path_failed
      (** "Warning: Path finding failed: ..." *)
  | Ev_print_endpoint (endpoint : point).
      (** "Warning: Could not process path for endpoint ..." *)

Record state := {
  heap : gmap loc ndarray;
  trace : list event
}.

Definition deref (σ : state) (l : loc) : ndarray := default [] (heap σ !! l).

Definition alloc (a : ndarray) (σ : state) : loc * state :=
  let l := fresh (dom (heap σ)) in
  (l, {| heap := <[l := a]> (heap σ); trace := trace σ |}).

Definition store (l : loc) (a : ndarray) (σ : state) : state :=
  {| heap := <[l := a]> (heap σ); trace := trace σ |}.

Definition emit (e : event) (σ : state) : state :=
  {| heap := heap σ; trace := trace σ ++ [e] |}.

(** How a block of statements ends. *)
Inductive outcome := Done | Raised.

(** ** get_path and remove_spurious_roads *)

Section Pruner.

(** [skimage.graph.route_through_array(cost_array, start, end,
    fully_connected=True)]: the list of [(y, x)] indices of the route, or
    [None] when it raises. *)
Variable route_through_array : ndarray → point → point → option (list point).

(** The cost array and every other array that is no longer referenced stay
    in the heap: there is no garbage collection in the model. *)
Definition get_path (self : RoadNetworkCleaner) (skeleton : loc)
    (start end_ : point) (σ : state) : list point * state :=
  let '(cost_array, σ) := alloc (invert (deref σ skeleton)) σ in
  let s : point := (start.2, start.1) in
  let e : point := (end_.2, end_.1) in
  let σ := emit (Ev_route s e) σ in
  match route_through_array (deref σ cost_array) s e with
  | Some indices => (indices, σ)
  | None => ([], emit Ev_print_path_failed σ)
  end.

(** The inner loop over the closest intersection. *)
Definition closer (endpoint : point) (acc : dist * option point)
    (intersection : point) : dist * option point :=
  let d := euclid endpoint intersection in
  if dist_ltb d acc.1 then (d, Some intersection) else acc.

Definition closest (endpoint : point) (intersections : list point)
    : dist * option point :=
  foldl (closer endpoint) (Inf, None) intersections.

(** The test [0 <= py < self.height and 0 <= px < self.width]. *)
Definition bounds_check (self : RoadNetworkCleaner) (py px : Z) : bool :=
  bool_decide ((0 ≤ py < Z.of_nat (height self))%Z
               ∧ (0 ≤ px < Z.of_nat (width self))%Z).

(** [for py, px in path: if <bounds check>: cleaned[py, px] = False],
    up to the first exception. *)
Fixpoint erase_path (self : RoadNetworkCleaner) (cleaned : loc)
    (path : list point) (σ : state) : state * outcome :=
  match path with
  | [] => (σ, Done)
  | (py, px) :: rest =>
      if bounds_check self py px then
        match setitem (deref σ cleaned) py px false with
        | Some a =>
            erase_path self cleaned rest
              (emit (Ev_setitem py px) (store cleaned a σ))
        | None => (σ, Raised)
        end
      else erase_path self cleaned rest σ
  end.

(** The body of the loop over the endpoints. *)
Definition prune_endpoint (self : RoadNetworkCleaner) (skeleton cleaned : loc)
    (intersections : list point) (σ : state) (endpoint : point) : state :=
  let '(closest_dist, closest_int) := closest endpoint intersections in
  if dist_lt_int closest_dist (min_road_length self) then
    match closest_int with
    | Some target =>
        (* try: *)
        let '(path, σ) := get_path self skeleton endpoint target σ in
        match erase_path self cleaned path σ with
        | (σ, Done) => σ
        | (σ, Raised) => (* except Exception: *) emit (Ev_print_endpoint endpoint) σ
        end
    | None => σ
    end
  else σ.

(** Returns the reference to the cleaned array. *)
Definition remove_spurious_roads (self : RoadNetworkCleaner) (skeleton : loc)
    (endpoints intersections : list point) (σ : state) : loc * state :=
  let '(cleaned, σ) := alloc (deref σ skeleton) σ in  (* skeleton.copy() *)
  (cleaned, foldl (prune_endpoint self skeleton cleaned intersections) σ endpoints).

(** [process_sketch] from the skeleton on: the dimensions are those of the
    sketch, which are those of its skeleton; [None] when the classification
    raises. *)
Definition process_skeleton (self : RoadNetworkCleaner) (skeleton : loc)
    (σ : state) : option (loc * state) :=
  let self := set_dimensions self (deref σ skeleton) in
  '(endpoints, intersections) ← find_network_points self (deref σ skeleton);
  Some (remove_spurious_roads self skeleton endpoints intersections σ).

End Pruner.

(** ** What the pruner expects of the pathfinder

    Paths are lists of [(y, x)] indices.  With [fully_connected=True] a step
    goes to one of the 8 cells around the current one; a cell of the cost
    array [~skeleton] costs nothing exactly when it is a skeleton pixel. *)

Definition king_moves (p : point) : list point :=
  [ (p.1 - 1, p.2 - 1); (p.1 - 1, p.2); (p.1 - 1, p.2 + 1);
    (p.1, p.2 - 1);                     (p.1, p.2 + 1);
    (p.1 + 1, p.2 - 1); (p.1 + 1, p.2); (p.1 + 1, p.2 + 1) ]%Z.

Definition cost_free (cost : ndarray) (p : point) : bool :=
  bool_decide ((0 ≤ p.1)%Z ∧ (0 ≤ p.2)%Z
               ∧ cost !! Z.to_nat p.1 ≫= (.!! Z.to_nat p.2) = Some false).

Fixpoint stepwise (p : list point) : Prop :=
  match p with
  | a :: (b :: _) as rest => b ∈ king_moves a ∧ stepwise rest
  | _ => True
  end.

Global Instance stepwise_dec p : Decision (stepwise p).
Proof.
  induction p as [|a [|b rest] IH]; [left; exact I|left; exact I|].
  cbn [stepwise]. apply _.
Defined.

(** [p] leads from [s] to [e]. *)
Definition walk (s e : point) (p : list point) : Prop :=
  head p = Some s ∧ last p = Some e ∧ stepwise p.

(** A simple walk on cells that cost nothing. *)
Definition free_walk (cost : ndarray) (s e : point) (p : list point) : Prop :=
  walk s e p ∧ NoDup p ∧ Forall (λ c, cost_free cost c = true) p.

(** The minimum-cost route costs nothing whenever some route does: if a
    walk from [s] to [e] stays on cells of no cost, the pathfinder returns
    such a walk, without a cell twice. *)
Definition follows_skeleton
    (route : ndarray → point → point → option (list point)) (cost : ndarray)
    : Prop :=
  ∀ s e q, walk s e q → Forall (λ c, cost_free cost c = true) q →
           ∃ p, route cost s e = Some p ∧ free_walk cost s e p.

(** All simple walks from [cur] to [goal] on cells of no cost that avoid
    [visited], of at most [fuel] cells. *)
Fixpoint simple_walks (fuel : nat) (cost : ndarray) (visited : list point)
    (cur goal : point) : list (list point) :=
  match fuel with
  | 0 => []
  | S fuel =>
      if decide (cur = goal) then [[cur]]
      else
        n ← filter (λ n, cost_free cost n = true ∧ n ∉ cur :: visited)
              (king_moves cur);
        (cur ::.) <$> simple_walks fuel cost (cur :: visited) n goal
  end.

(** The cells of an array and those of no cost. *)
Definition cells (a : ndarray) : list point :=
  y ← seqZ 0 (Z.of_nat (nrows a)); x ← seqZ 0 (Z.of_nat (ncols a)); [(y, x)].
Definition free_cells (cost : ndarray) : list point :=
  filter (λ c, cost_free cost c = true) (cells cost).

(** ** A pathfinder to run the pruner with: depth-first search over the
    cells of no cost. *)

Module Reference.

Fixpoint dfs (fuel : nat) (cost : ndarray) (visited : list point)
    (cur goal : point) : option (list point) :=
  match fuel with
  | 0 => None
  | S fuel =>
      if decide (cur = goal) then Some [cur]
      else
        foldr (λ n found,
                 if bool_decide (cost_free cost n = true ∧ n ∉ cur :: visited)
                 then match dfs fuel cost (cur :: visited) n goal with
                      | Some p => Some (cur :: p)
                      | None => found
                      end
                 else found)
          None (king_moves cur)
  end.

Definition route (cost : ndarray) (s e : point) : option (list point) :=
  if cost_free cost s then dfs (nrows cost * ncols cost) cost [] s e else None.

(** [route] meets the contract between [s] and [e]. *)
Definition check (cost : ndarray) (s e : point) : bool :=
  match route cost s e with
  | Some p => bool_decide (free_walk cost s e p)
  | None => false
  end.

End Reference.

(** ** The literal scenario of the specification *)

Module Scenario.

Definition F := false.
Definition T := true.

(** 10 x 10, a line from (1,5) to (8,5) and a stub from (4,5) up to (4,2). *)
Definition skeleton : ndarray :=
  [ [F;F;F;F;F;F;F;F;F;F];
    [F;F;F;F;F;F;F;F;F;F];
    [F;F;F;F;T;F;F;F;F;F];
    [F;F;F;F;T;F;F;F;F;F];
    [F;F;F;F;T;F;F;F;F;F];
    [F;T;T;T;T;T;T;T;T;F];
    [F;F;F;F;F;F;F;F;F;F];
    [F;F;F;F;F;F;F;F;F;F];
    [F;F;F;F;F;F;F;F;F;F];
    [F;F;F;F;F;F;F;F;F;F] ].

Definition cleaner : RoadNetworkCleaner :=
  {| min_road_length := 4; intersection_radius := 5; height := 10; width := 10 |}.

Definition endpoints : list point := [(4, 2); (1, 5); (8, 5)]%Z.
Definition intersections : list point := [(4, 4); (3, 5); (4, 5); (5, 5)]%Z.

(** What is left of the skeleton after pruning with [min_road_length = 4]. *)
Definition cleaned : ndarray :=
  [ [F;F;F;F;F;F;F;F;F;F];
    [F;F;F;F;F;F;F;F;F;F];
    [F;F;F;F;F;F;F;F;F;F];
    [F;F;F;F;F;F;F;F;F;F];
    [F;F;F;F;F;F;F;F;F;F];
    [F;F;F;F;T;F;F;F;F;F];
    [F;F;F;F;F;F;F;F;F;F];
    [F;F;F;F;F;F;F;F;F;F];
    [F;F;F;F;F;F;F;F;F;F];
    [F;F;F;F;F;F;F;F;F;F] ].

(** A heap that holds the skeleton, and nothing else. *)
Definition skeleton_ref : loc := 1%positive.
Definition σ0 : state := {| heap := {[ skeleton_ref := skeleton ]}; trace := [] |}.

(** A pathfinder that always raises. *)
Definition no_route (cost : ndarray) (s e : point) : option (list point) := None.

(** A pathfinder that finds no route from the tip of the stub, and searches
    depth-first from everywhere else. *)
Definition blocked_route (cost : ndarray) (s e : point) : option (list point) :=
  if decide (s = (2, 4)%Z) then None else Reference.route cost s e.

End Scenario.


(** ** Rasters as functions of the coordinates *)

(** The pixel at column [x], row [y]; background outside the raster. *)
Definition pixel (a : ndarray) (x y : Z) : bool :=
  if decide (0 ≤ x ∧ 0 ≤ y)%Z
  then default false (a !! Z.to_nat y ≫= (.!! Z.to_nat x))
  else false.

(** The 8 cells that surround [(x, y)]. *)
Definition surrounding (x y : Z) : list point :=
  [ (x - 1, y - 1); (x, y - 1); (x + 1, y - 1);
    (x - 1, y);                 (x + 1, y);
    (x - 1, y + 1); (x, y + 1); (x + 1, y + 1) ]%Z.

(** The number of foreground cells among them. *)
Definition neighbor_count (a : ndarray) (x y : Z) : Z :=
  Z.of_nat (length (filter (λ p : point, pixel a p.1 p.2 = true) (surrounding x y))).

(** The foreground pixels of a raster, as [(x, y)]. *)
Definition foreground (a : ndarray) : list point :=
  (λ c : point, (c.2, c.1)) <$> filter (λ c : point, pixel a c.2 c.1 = true) (cells a).

(** Row-major scan order on [(x, y)] coordinates: smaller [y] first, then
    smaller [x]. *)
Definition scan_lt (p q : point) : Prop :=
  (p.2 < q.2 ∨ (p.2 = q.2 ∧ p.1 < q.1))%Z.

(** What one padded position adds to the two lists. *)
Definition contribution (padded : ndarray) (y x : nat) : network_points :=
  default ([], []) (classify_pixel padded y x ([], [])).

(** ** The pruner as a function of the skeleton

    What [remove_spurious_roads] does to the contents of [cleaned] and to
    the trace, without the heap; the heap-passing functions are shown to
    compute exactly this. *)

Section Functional.

Variable route_through_array : ndarray → point → point → option (list point).

Fixpoint erase_fn (self : RoadNetworkCleaner) (path : list point) (a : ndarray)
    : ndarray * list event * outcome :=
  match path with
  | [] => (a, [], Done)
  | (py, px) :: rest =>
      if bounds_check self py px then
        match setitem a py px false with
        | Some a' =>
            let '(a'', evs, o) := erase_fn self rest a' in
            (a'', Ev_setitem py px :: evs, o)
        | None => (a, [], Raised)
        end
      else erase_fn self rest a
  end.

Definition get_path_fn (sk : ndarray) (start end_ : point)
    : list point * list event :=
  let s : point := (start.2, start.1) in
  let e : point := (end_.2, end_.1) in
  match route_through_array (invert sk) s e with
  | Some indices => (indices, [Ev_route s e])
  | None => ([], [Ev_route s e; Ev_print_path_failed])
  end.

(** The intersection towards which [endpoint] is pruned, if it is. *)
Definition target (self : RoadNetworkCleaner) (intersections : list point)
    (endpoint : point) : option point :=
  if dist_lt_int (closest endpoint intersections).1 (min_road_length self)
  then (closest endpoint intersections).2 else None.

Definition prune_fn (self : RoadNetworkCleaner) (sk : ndarray)
    (intersections : list point) (a : ndarray) (endpoint : point)
    : ndarray * list event :=
  match target self intersections endpoint with
  | Some t =>
      let '(path, evs1) := get_path_fn sk endpoint t in
      let '(a', evs2, o) := erase_fn self path a in
      (a', evs1 ++ evs2 ++
             match o with Done => [] | Raised => [Ev_print_endpoint endpoint] end)
  | None => (a, [])
  end.

Definition clean_fn (self : RoadNetworkCleaner) (sk : ndarray)
    (endpoints intersections : list point) : ndarray * list event :=
  foldl (λ '(a, evs) endpoint,
           let '(a', evs') := prune_fn self sk intersections a endpoint in
           (a', evs ++ evs'))
    (sk, []) endpoints.

End Functional.

(** The endpoints for which the pathfinder is called, read off a trace. *)
Definition routed (evs : list event) : list point :=
  omap (λ ev, match ev with Ev_route s _ => Some (s.2, s.1) | _ => None end) evs.

(** The pixel assignments of a trace. *)
Definition assigned (evs : list event) : list point :=
  omap (λ ev, match ev with Ev_setitem py px => Some (py, px) | _ => None end) evs.

Global Arguments routed : simpl never.
Global Arguments assigned : simpl never.

(** Two arrays of one shape. *)
Definition same_shape (a b : ndarray) : Prop :=
  length <$> a = length <$> b.

(** Every array of [h] is still in [h'] and unchanged, except perhaps [c]. *)
Definition frame (c : loc) (h h' : gmap loc ndarray) : Prop :=
  ∀ l, l ≠ c → is_Some (h !! l) → h' !! l = h !! l.

(** [a] has a cell at row [py], column [px], addressed without wrap-around. *)
Definition in_array (a : ndarray) (py px : Z) : Prop :=
  (0 ≤ py)%Z ∧ (0 ≤ px)%Z ∧ is_Some (a !! Z.to_nat py ≫= (.!! Z.to_nat px)).

(** Row [py], column [px] is within the height and width of [a]. *)
Definition in_raster (a : ndarray) (p : point) : Prop :=
  (0 ≤ p.1 < Z.of_nat (nrows a))%Z ∧ (0 ≤ p.2 < Z.of_nat (ncols a))%Z.

Global Instance in_raster_dec a p : Decision (in_raster a p).
Proof. unfold in_raster. apply _. Defined.

(** [a] has the shape of [sk] and no foreground outside that of [sk]. *)
Definition below (sk a : ndarray) : Prop :=
  same_shape sk a ∧ ∀ x y, pixel a x y = true → pixel sk x y = true.

(** The Euclidean distance from [p] to [q] is at least [t]. *)
Definition dist_ge (p q : point) (t : Z) : Prop :=
  (t ≤ 0 ∨ t * t ≤ sq_dist p q)%Z.

(** ** The rest of exec.py: the pipeline around the cleaner *)

(** The exceptions that occur; [Cv2Error] is [cv2.error]. *)
Inductive exn := AttributeError | IndexError | ValueError | TypeError | Cv2Error.

Inductive result (A : Type) :=
  | Ok (a : A)
  | Raise (e : exn).
Global Arguments Ok {A} a.
Global Arguments Raise {A} e.

(** A [RoadNetworkCleaner] instance.  [__init__] sets [min_road_length] and
    [intersection_radius] only: the attributes [height] and [width] do not
    exist ([None]) until [process_sketch] assigns them. *)
Record instance := {
  attr_min_road_length : Z;
  attr_intersection_radius : Z;
  attr_height : option nat;
  attr_width : option nat
}.

(** [RoadNetworkCleaner()] *)
Definition new_cleaner : instance :=
  {| attr_min_road_length := 20; attr_intersection_radius := 5;
     attr_height := None; attr_width := None |}.

(** [self.height, self.width = h, w] *)
Definition with_dimensions (obj : instance) (h w : nat) : instance :=
  {| attr_min_road_length := attr_min_road_length obj;
     attr_intersection_radius := attr_intersection_radius obj;
     attr_height := Some h; attr_width := Some w |}.

(** An instance whose dimensions are set. *)
Definition as_cleaner (obj : instance) (h w : nat) : RoadNetworkCleaner :=
  {| min_road_length := attr_min_road_length obj;
     intersection_radius := attr_intersection_radius obj;
     height := h; width := w |}.

(** [obj.find_network_points(skeleton)]: [self.height] is read when the
    outer loop starts, [self.width] when its first iteration starts. *)
Definition call_find_network_points (obj : instance) (skeleton : ndarray)
    : result network_points :=
  match attr_height obj with
  | None => Raise AttributeError
  | Some h =>
      match attr_width obj with
      | None => if decide (h = 0) then Ok ([], []) else Raise AttributeError
      | Some w =>
          match find_network_points (as_cleaner obj h w) skeleton with
          | Some points => Ok points
          | None => Raise IndexError
          end
      end
  end.

(** An image as [process_sketch] may receive it: 2-D [uint8], or 3-D with
    three channels. *)
Definition rgb : Type := Z * Z * Z.

Inductive sketch :=
  | Gray (img : list (list Z))
  | Color (img : list (list rgb)).

(** [img.shape[:2]] *)
Definition shape2 {A} (img : list (list A)) : nat * nat :=
  (length img, match img with [] => 0 | r :: _ => length r end).

Definition rectangular {A} (img : list (list A)) : Prop :=
  Forall (λ r, length r = (shape2 img).2) img.

Global Instance rectangular_dec {A} (img : list (list A)) : Decision (rectangular img).
Proof. unfold rectangular. apply _. Defined.

Definition sketch_shape (sketch_img : sketch) : nat * nat :=
  match sketch_img with Gray g => shape2 g | Color c => shape2 c end.

(** Every image is rectangular. *)
Definition sketch_rectangular (sketch_img : sketch) : Prop :=
  match sketch_img with Gray g => rectangular g | Color c => rectangular c end.

(** The value of a single-channel image at column [x], row [y]. *)
Definition gray_at (img : list (list Z)) (x y : Z) : option Z :=
  if decide (0 ≤ x ∧ 0 ≤ y)%Z
  then img !! Z.to_nat y ≫= (.!! Z.to_nat x)
  else None.

(** An image with at least one pixel. *)
Definition nonempty {A} (img : list (list A)) : Prop :=
  0 < (shape2 img).1 ∧ 0 < (shape2 img).2.

Global Instance nonempty_dec {A} (img : list (list A)) : Decision (nonempty img).
Proof. unfold nonempty. apply _. Defined.

Definition sketch_nonempty (sketch_img : sketch) : Prop :=
  match sketch_img with Gray g => nonempty g | Color c => nonempty c end.

(** The rule of [cv2.THRESH_BINARY], pixel by pixel. *)
Definition threshold_binary (thresh maxval : Z) (src : list (list Z))
    : list (list Z) :=
  (λ row : list Z, (λ v, if decide (thresh < v)%Z then maxval else 0%Z) <$> row)
    <$> src.

(** [cv2.threshold(src, thresh, maxval, cv2.THRESH_BINARY)[1]]: for an image
    without pixels the destination is empty and Python receives [None]. *)
Definition cv2_threshold (thresh maxval : Z) (src : list (list Z))
    : option (list (list Z)) :=
  if decide (nonempty src) then Some (threshold_binary thresh maxval src)
  else None.

(** [cv2.cvtColor(src, code)] with the conversion [convert]: an image
    without pixels fails the assertion [!_src.empty()]. *)
Definition cv2_cvtColor {A B} (convert : list (list A) → list (list B))
    (src : list (list A)) : result (list (list B)) :=
  if decide (nonempty src) then Ok (convert src) else Raise Cv2Error.

(** [img > 0] *)
Definition gt0 (img : list (list Z)) : ndarray :=
  (λ row : list Z, (λ v, bool_decide (0 < v)%Z) <$> row) <$> img.

(** [(a * 255).astype(np.uint8)] of a boolean array *)
Definition times255 (a : ndarray) : list (list Z) :=
  (λ row : list bool, (λ b : bool, if b then 255%Z else 0%Z) <$> row) <$> a.

(** [np.hstack((a, b))] of two images: the rows side by side; the heights
    must agree. *)
Definition hstack {A} (a b : list (list A)) : result (list (list A)) :=
  if decide (length a = length b) then Ok (zip_with app a b) else Raise ValueError.

(** What the script prints and writes. *)
Inductive action :=
  | Act_print_size (h w : nat)
      (** "Processing image of size ..." *)
  | Act_imwrite (img : list (list rgb))
      (** [cv2.imwrite(output_path, img)] *)
  | Act_print_complete
      (** "Processing complete. Check output at: ..." *)
  | Act_print_error (e : exn).
      (** "Error processing road network: ..." *)

Section Pipeline.

(** The library routines, as functions on images that have pixels. *)
Variable route_through_array : ndarray → point → point → option (list point).
Variable skeletonize : ndarray → ndarray.
Variable cvtColor_BGR2GRAY : list (list rgb) → list (list Z).
Variable cvtColor_GRAY2RGB : list (list Z) → list (list rgb).
(** [cv2.circle(img, center, radius, color, -1)], returning the image it
    has drawn on. *)
Variable circle : list (list rgb) → point → Z → rgb → list (list rgb).

(** The single-channel image that is binarised:
    [if len(sketch_img.shape) > 2: sketch_img = cv2.cvtColor(...)]. *)
Definition grayscale (sketch_img : sketch) : result (list (list Z)) :=
  match sketch_img with
  | Color c => cv2_cvtColor cvtColor_BGR2GRAY c
  | Gray g => Ok g
  end.

(** The skeleton that [process_sketch] builds from a single-channel image
    that has pixels. *)
Definition skeleton_of (gray : list (list Z)) : ndarray :=
  skeletonize (gt0 (threshold_binary 127 255 gray)).

(** Returns the instance as the call leaves it, the state, and the
    reference to the cleaned network or the exception.  When
    [cv2.threshold] hands back [None], [binary > 0] is a [TypeError]. *)
Definition process_sketch (obj : instance) (sketch_img : sketch) (σ : state)
    : instance * state * result loc :=
  let '(h, w) := sketch_shape sketch_img in
  let obj := with_dimensions obj h w in
  match grayscale sketch_img with
  | Raise e => (obj, σ, Raise e)
  | Ok sketch_img =>
      match cv2_threshold 127 255 sketch_img with
      | None => (obj, σ, Raise TypeError)
      | Some binary =>
          let '(skeleton, σ) := alloc (skeletonize (gt0 binary)) σ in
          match call_find_network_points obj (deref σ skeleton) with
          | Raise e => (obj, σ, Raise e)
          | Ok (endpoints, intersections) =>
              let '(cleaned, σ) :=
                remove_spurious_roads route_through_array (as_cleaner obj h w)
                  skeleton endpoints intersections σ in
              (obj, σ, Ok cleaned)
          end
      end
  end.

(** [for point in points: x, y = point; if <in the image>: cv2.circle(...)] *)
Definition draw_points (color : rgb) (img : list (list rgb)) (points : list point)
    : list (list rgb) :=
  foldl (λ img (p : point),
           if bool_decide ((0 ≤ p.1 < Z.of_nat (shape2 img).2)%Z
                           ∧ (0 ≤ p.2 < Z.of_nat (shape2 img).1)%Z)
           then circle img p 3 color else img)
    img points.

Definition visualize_cleanup (original : list (list Z)) (cleaned : ndarray)
    : result (list (list rgb)) :=
  match cv2_cvtColor cvtColor_GRAY2RGB original with
  | Raise e => Raise e
  | Ok orig_rgb =>
      match cv2_cvtColor cvtColor_GRAY2RGB (times255 cleaned) with
      | Raise e => Raise e
      | Ok clean_rgb =>
          let cleaner := new_cleaner in
          match call_find_network_points cleaner cleaned with
          | Raise e => Raise e
          | Ok (endpoints, intersections) =>
              let clean_rgb := draw_points (255, 0, 0)%Z clean_rgb endpoints in
              let clean_rgb :=
                draw_points (0, 255, 0)%Z clean_rgb intersections in
              hstack orig_rgb clean_rgb
          end
      end
  end.

(** [sketch] is what [cv2.imread(input_path, cv2.IMREAD_GRAYSCALE)]
    returned, [None] for an unreadable file. *)
Definition process_road_sketch (sketch : option (list (list Z))) (σ : state)
    : state * list action * result loc :=
  match sketch with
  | None => (σ, [], Raise ValueError)
  | Some img =>
      let acts := [Act_print_size (shape2 img).1 (shape2 img).2] in
      let '(_, σ, r) := process_sketch new_cleaner (Gray img) σ in
      match r with
      | Raise e => (σ, acts, Raise e)
      | Ok cleaned_network =>
          match visualize_cleanup img (deref σ cleaned_network) with
          | Raise e => (σ, acts, Raise e)
          | Ok comparison =>
              (σ, acts ++ [Act_imwrite comparison], Ok cleaned_network)
          end
      end
  end.

Definition main (sketch : option (list (list Z))) (σ : state)
    : state * list action :=
  let '(σ, acts, r) := process_road_sketch sketch σ in
  match r with
  | Ok _ => (σ, acts ++ [Act_print_complete])
  | Raise e => (σ, acts ++ [Act_print_error e])
  end.

End Pipeline.

(** Stand-ins for the library routines, to run the pipeline with. *)
Module Standin.

Definition skeletonize (a : ndarray) : ndarray := a.
Definition cvtColor_BGR2GRAY (c : list (list rgb)) : list (list Z) :=
  (λ row : list rgb, (λ v : rgb, v.1.2) <$> row) <$> c.
Definition cvtColor_GRAY2RGB (g : list (list Z)) : list (list rgb) :=
  (λ row : list Z, (λ v : Z, (v, v, v)) <$> row) <$> g.
Definition circle (img : list (list rgb)) (center : point) (radius : Z)
    (color : rgb) : list (list rgb) := img.

(** The scenario as a sketch: white on black. *)
Definition sketch : list (list Z) := times255 Scenario.skeleton.

End Standin.

(** * Properties *)

(** ** numpy *)

Section np_lemmas.
Implicit Types (a : ndarray) (r : list bool) (i j : nat).

Lemma norm_index_nat n i : i < n → norm_index n (Z.of_nat i) = Some i.
Proof.
  intros Hi. unfold norm_index.
  rewrite decide_True by lia. by rewrite Nat2Z.id.
Qed.

Lemma norm_index_nonneg n z k :
  (0 ≤ z)%Z → norm_index n z = Some k → k = Z.to_nat z ∧ k < n.
Proof.
  intros Hz. unfold norm_index. repeat case_decide; intros; simplify_eq; lia.
Qed.

Lemma norm_index_lt n z k : norm_index n z = Some k → k < n.
Proof. unfold norm_index. repeat case_decide; intros; simplify_eq; lia. Qed.

Lemma rect_lookup a i r : rect a → a !! i = Some r → length r = ncols a.
Proof. intros Ha Hr. eapply (Forall_lookup_1 _ _ _ _ Ha Hr). Qed.

Lemma take3_drop {A} (l : list A) i x y z :
  l !! i = Some x → l !! (i + 1) = Some y → l !! (i + 2) = Some z →
  take 3 (drop i l) = [x; y; z].
Proof.
  intros Hx Hy Hz.
  rewrite (drop_S _ _ _ Hx).
  replace (i + 1) with (S i) in Hy by lia. rewrite (drop_S _ _ _ Hy).
  replace (i + 2) with (S (S i)) in Hz by lia. by rewrite (drop_S _ _ _ Hz).
Qed.

(** The cell of the padded array at [(i, j)] is the pixel of the array at
    column [j - 1], row [i - 1]. *)
Lemma pad_row a i :
  rect a → i < nrows a + 2 →
  ∃ r, pad a !! i = Some r ∧ length r = ncols a + 2 ∧
       ∀ j, j < ncols a + 2 →
            r !! j = Some (pixel a (Z.of_nat j - 1) (Z.of_nat i - 1)).
Proof.
  intros Hrect Hi. unfold nrows in *.
  assert (∀ k, pad a !! S k
               = (((λ r, false :: r ++ [false]) <$> a)
                    ++ [replicate (ncols a + 2) false]) !! k) as Hpad by done.
  destruct i as [|i].
  { eexists; split; [done|]. split; [by rewrite length_replicate|].
    intros j Hj. rewrite lookup_replicate_2 by done.
    unfold pixel. by rewrite decide_False by lia. }
  rewrite Hpad.
  destruct (decide (i < length a)) as [Hlt|Hge].
  - destruct (lookup_lt_is_Some_2 a i Hlt) as [r Hr].
    exists (false :: r ++ [false]).
    pose proof (rect_lookup _ _ _ Hrect Hr) as Hlen.
    split.
    { rewrite lookup_app_l by (rewrite length_fmap; lia).
      by rewrite list_lookup_fmap, Hr. }
    split; [cbn; rewrite length_app; cbn; lia|].
    intros j Hj. unfold pixel.
    destruct j as [|j].
    { by rewrite decide_False by lia. }
    rewrite decide_True by lia.
    replace (Z.to_nat (Z.of_nat (S i) - 1)) with i by lia.
    replace (Z.to_nat (Z.of_nat (S j) - 1)) with j by lia.
    rewrite Hr.
    change ((false :: r ++ [false]) !! S j) with ((r ++ [false]) !! j).
    change (Some r ≫= (.!! j)) with (r !! j).
    destruct (decide (j < length r)).
    + rewrite lookup_app_l by done.
      destruct (lookup_lt_is_Some_2 r j) as [b Hb]; [done|]. by rewrite Hb.
    + rewrite lookup_app_r by lia.
      replace (j - length r) with 0 by lia.
      by rewrite (lookup_ge_None_2 r j) by lia.
  - assert (i = length a) as -> by lia.
    eexists. split.
    { rewrite lookup_app_r by (rewrite length_fmap; lia).
      rewrite length_fmap, Nat.sub_diag. done. }
    split; [by rewrite length_replicate|].
    intros j Hj. rewrite lookup_replicate_2 by done.
    unfold pixel. case_decide; [|done].
    replace (Z.to_nat (Z.of_nat (S (length a)) - 1)) with (length a) by lia.
    by rewrite (lookup_ge_None_2 a (length a)) by lia.
Qed.

Lemma getitem_pad a i j :
  rect a → i < nrows a + 2 → j < ncols a + 2 →
  getitem (pad a) (Z.of_nat i) (Z.of_nat j)
  = Some (pixel a (Z.of_nat j - 1) (Z.of_nat i - 1)).
Proof.
  intros Hrect Hi Hj.
  destruct (pad_row a i Hrect Hi) as (r & Hr & Hlen & Hcell).
  unfold getitem.
  assert (nrows (pad a) = nrows a + 2) as ->.
  { unfold pad, nrows. cbn. rewrite length_app, length_fmap. cbn. lia. }
  rewrite norm_index_nat by done. cbn. rewrite Hr. cbn.
  rewrite norm_index_nat by lia. cbn. by apply Hcell.
Qed.

(** The 3 x 3 window around the padded position [(y, x)]. *)
Lemma slice_pad a y x (X Y : Z) :
  rect a → 1 ≤ y ≤ nrows a → 1 ≤ x ≤ ncols a →
  X = (Z.of_nat x - 1)%Z → Y = (Z.of_nat y - 1)%Z →
  slice (pad a) (y - 1) (y + 2) (x - 1) (x + 2)
  = [ [pixel a (X - 1) (Y - 1); pixel a X (Y - 1); pixel a (X + 1) (Y - 1)];
      [pixel a (X - 1) Y;       pixel a X Y;       pixel a (X + 1) Y];
      [pixel a (X - 1) (Y + 1); pixel a X (Y + 1); pixel a (X + 1) (Y + 1)] ]%Z.
Proof.
  intros Hrect Hy Hx -> ->. unfold slice.
  replace (y + 2 - (y - 1)) with 3 by lia.
  replace (x + 2 - (x - 1)) with 3 by lia.
  destruct (pad_row a (y - 1) Hrect) as (r0 & Hr0 & _ & Hc0); [lia|].
  destruct (pad_row a (y - 1 + 1) Hrect) as (r1 & Hr1 & _ & Hc1); [lia|].
  destruct (pad_row a (y - 1 + 2) Hrect) as (r2 & Hr2 & _ & Hc2); [lia|].
  rewrite (take3_drop _ _ _ _ _ Hr0 Hr1 Hr2). cbn [fmap list_fmap].
  assert (∀ r i, (∀ j, j < ncols a + 2 →
                    r !! j = Some (pixel a (Z.of_nat j - 1) (Z.of_nat i - 1))) →
            ∀ Y', (Z.of_nat i - 1)%Z = Y' →
            take 3 (drop (x - 1) r)
            = [pixel a (Z.of_nat x - 1 - 1) Y'; pixel a (Z.of_nat x - 1) Y';
               pixel a (Z.of_nat x - 1 + 1) Y']%Z) as Hrow.
  { intros r i Hc Y' <-.
    apply take3_drop; rewrite Hc by lia; do 2 f_equal; lia. }
  rewrite (Hrow r0 _ Hc0 (Z.of_nat y - 1 - 1)%Z) by lia.
  rewrite (Hrow r1 _ Hc1 (Z.of_nat y - 1)%Z) by lia.
  rewrite (Hrow r2 _ Hc2 (Z.of_nat y - 1 + 1)%Z) by lia.
  done.
Qed.

(** With a foreground centre, the sum of the window less one is the
    number of foreground cells around the centre. *)
Lemma window_sum a y x :
  rect a → 1 ≤ y ≤ nrows a → 1 ≤ x ≤ ncols a →
  pixel a (Z.of_nat x - 1) (Z.of_nat y - 1) = true →
  (sum (slice (pad a) (y - 1) (y + 2) (x - 1) (x + 2)) - 1)%Z
  = neighbor_count a (Z.of_nat x - 1) (Z.of_nat y - 1).
Proof.
  intros Hrect Hy Hx Hc.
  rewrite (slice_pad a y x _ _ Hrect Hy Hx eq_refl eq_refl).
  unfold neighbor_count, surrounding. rewrite Hc.
  generalize (Z.of_nat x - 1)%Z (Z.of_nat y - 1)%Z. intros X Y.
  repeat rewrite filter_cons. rewrite filter_nil. cbn [fst snd].
  destruct (pixel a (X - 1) (Y - 1)), (pixel a X (Y - 1)),
    (pixel a (X + 1) (Y - 1)), (pixel a (X - 1) Y), (pixel a (X + 1) Y),
    (pixel a (X - 1) (Y + 1)), (pixel a X (Y + 1)), (pixel a (X + 1) (Y + 1));
    reflexivity.
Qed.

End np_lemmas.

(** ** The topology analyzer *)

Section analyzer.
Implicit Types (acc : network_points) (p : point).

Lemma classify_pixel_appends padded y x acc acc' :
  classify_pixel padded y x acc = Some acc' →
  acc' = (acc.1 ++ (contribution padded y x).1,
          acc.2 ++ (contribution padded y x).2).
Proof.
  unfold contribution, classify_pixel. destruct acc as [es js].
  destruct (getitem padded _ _) as [[]|]; cbn; [| |done].
  - repeat case_decide; intros; simplify_eq; cbn; by rewrite ?app_nil_r.
  - intros; simplify_eq. by rewrite !app_nil_r.
Qed.

Lemma for_each_appends {A} (xs : list A) body (c : A → network_points) acc acc' :
  (∀ x a a', body x a = Some a' → a' = (a.1 ++ (c x).1, a.2 ++ (c x).2)) →
  for_each xs body acc = Some acc' →
  acc' = (acc.1 ++ (xs ≫= λ x, (c x).1), acc.2 ++ (xs ≫= λ x, (c x).2)).
Proof.
  intros Hbody. revert acc.
  induction xs as [|x xs IH]; intros acc; cbn.
  - intros [= <-]. rewrite !app_nil_r. by destruct acc.
  - destruct (body x acc) as [a|] eqn:Hx; [|done]. cbn.
    intros Hrest. rewrite (IH _ Hrest), (Hbody _ _ _ Hx). cbn.
    by rewrite <- !app_assoc.
Qed.

Lemma for_each_total {A S} (xs : list A) (body : A → S → option S) s :
  (∀ x s, x ∈ xs → is_Some (body x s)) → is_Some (for_each xs body s).
Proof.
  revert s. induction xs as [|x xs IH]; intros s Hbody; cbn; [by eexists|].
  destruct (Hbody x s) as [s' ->]; [left|]. cbn.
  apply IH. intros. apply Hbody. by right.
Qed.

(** The two lists in closed form. *)
Lemma find_network_points_closed self skeleton endpoints intersections :
  find_network_points self skeleton = Some (endpoints, intersections) →
  endpoints = (seq 1 (height self) ≫= λ y, seq 1 (width self) ≫= λ x,
                 (contribution (pad skeleton) y x).1) ∧
  intersections = (seq 1 (height self) ≫= λ y, seq 1 (width self) ≫= λ x,
                 (contribution (pad skeleton) y x).2).
Proof.
  unfold find_network_points. intros Hrun.
  apply (for_each_appends _ _
           (λ y, (seq 1 (width self) ≫= λ x, (contribution (pad skeleton) y x).1,
                  seq 1 (width self) ≫= λ x, (contribution (pad skeleton) y x).2)))
    in Hrun.
  - by simplify_eq.
  - intros y a a' Hrow.
    apply (for_each_appends _ _ (contribution (pad skeleton) y)) in Hrow; [done|].
    intros x b b'. apply classify_pixel_appends.
Qed.

Lemma find_network_points_total self skeleton :
  fits self skeleton → is_Some (find_network_points self skeleton).
Proof.
  intros (Hh & Hw & Hrect). unfold find_network_points.
  apply for_each_total. intros y acc [Hy1 Hy2]%elem_of_seq.
  apply for_each_total. intros x acc' [Hx1 Hx2]%elem_of_seq.
  unfold classify_pixel.
  rewrite getitem_pad by (done || lia). cbn.
  destruct (pixel _ _ _); [|by eexists].
  repeat case_decide; by eexists.
Qed.

(** The contribution of a position of a raster of the right shape. *)
Lemma contribution_fits skeleton y x :
  rect skeleton → 1 ≤ y ≤ nrows skeleton → 1 ≤ x ≤ ncols skeleton →
  let X := (Z.of_nat x - 1)%Z in
  let Y := (Z.of_nat y - 1)%Z in
  contribution (pad skeleton) y x
  = if pixel skeleton X Y then
      if decide (neighbor_count skeleton X Y = 1%Z) then ([(X, Y)], [])
      else if decide (neighbor_count skeleton X Y > 2)%Z then ([], [(X, Y)])
      else ([], [])
    else ([], []).
Proof.
  intros Hrect Hy Hx X Y. unfold contribution, classify_pixel.
  rewrite getitem_pad by (done || lia). cbn. fold X Y.
  destruct (pixel skeleton X Y) eqn:Hp; [|done].
  rewrite window_sum by done. fold X Y.
  by repeat case_decide.
Qed.

(** Whatever the shape, a contribution is at most the position itself,
    in one of the two lists. *)
Lemma contribution_cases padded y x :
  let p : point := (Z.of_nat x - 1, Z.of_nat y - 1)%Z in
  contribution padded y x = ([], []) ∨
  contribution padded y x = ([p], []) ∨
  contribution padded y x = ([], [p]).
Proof.
  unfold contribution, classify_pixel.
  destruct (getitem padded _ _) as [[]|]; cbn; auto.
  repeat case_decide; cbn; auto.
Qed.

Lemma elem_of_scan (h w : nat) (f : nat → nat → list point) p :
  p ∈ (seq 1 h ≫= λ y, seq 1 w ≫= λ x, f y x)
  ↔ ∃ y x, 1 ≤ y ≤ h ∧ 1 ≤ x ≤ w ∧ p ∈ f y x.
Proof.
  rewrite list_elem_of_bind. split.
  - intros (y & (x & Hp & Hx%elem_of_seq)%list_elem_of_bind & Hy%elem_of_seq).
    exists y, x. repeat split; (done || lia).
  - intros (y & x & Hy & Hx & Hp). exists y. split; [|apply elem_of_seq; lia].
    apply list_elem_of_bind. exists x. split; [done|apply elem_of_seq; lia].
Qed.

Lemma seq_sorted j n : StronglySorted lt (seq j n).
Proof.
  revert j. induction n as [|n IH]; intros j; cbn; constructor; [done|].
  apply Forall_forall. intros k Hk%elem_of_seq. lia.
Qed.

Lemma sorted_bind {A B} (R1 : relation A) (R : relation B) (f : A → list B) xs :
  StronglySorted R1 xs →
  (∀ x, x ∈ xs → StronglySorted R (f x)) →
  (∀ x1 x2 b1 b2, x1 ∈ xs → x2 ∈ xs → R1 x1 x2 → b1 ∈ f x1 → b2 ∈ f x2 → R b1 b2) →
  StronglySorted R (xs ≫= f).
Proof.
  induction 1 as [|x xs Hsorted IH Hall]; intros Hf Hcross; cbn; [constructor|].
  apply StronglySorted_app. split_and!.
  - intros b1 b2 Hb1 (x2 & Hb2 & Hx2)%list_elem_of_bind.
    apply (Hcross x x2); [left|by right| |done..].
    rewrite Forall_forall in Hall. by apply Hall.
  - apply Hf. left.
  - apply IH.
    + intros. apply Hf. by right.
    + intros x1 x2 ????. apply (Hcross x1 x2); by try right.
Qed.

(** A scan that reports at most the visited position yields its
    positions in row-major order. *)
Lemma scan_sorted (h w : nat) (f : nat → nat → list point) :
  (∀ y x, f y x = [] ∨ f y x = [(Z.of_nat x - 1, Z.of_nat y - 1)%Z]) →
  StronglySorted scan_lt (seq 1 h ≫= λ y, seq 1 w ≫= λ x, f y x).
Proof.
  intros Hf.
  assert (∀ y x p, p ∈ f y x → p = (Z.of_nat x - 1, Z.of_nat y - 1)%Z) as Hp.
  { intros y x p. destruct (Hf y x) as [-> | ->].
    - by intros ?%elem_of_nil.
    - by intros ?%list_elem_of_singleton. }
  apply (sorted_bind lt); [apply seq_sorted| |].
  - intros y _. apply (sorted_bind lt); [apply seq_sorted| |].
    + intros x _. destruct (Hf y x) as [-> | ->]; repeat constructor.
    + intros x1 x2 b1 b2 _ _ Hlt ->%Hp ->%Hp. right. cbn. lia.
  - intros y1 y2 b1 b2 _ _ Hlt (x1 & ->%Hp & _)%list_elem_of_bind
      (x2 & ->%Hp & _)%list_elem_of_bind.
    left. cbn. lia.
Qed.

Lemma pixel_true_bounds a x y :
  rect a → pixel a x y = true →
  (0 ≤ x < Z.of_nat (ncols a))%Z ∧ (0 ≤ y < Z.of_nat (nrows a))%Z.
Proof.
  intros Hrect. unfold pixel. case_decide as Hxy; [|done].
  destruct (a !! Z.to_nat y) as [r|] eqn:Hr; [|done]. cbn.
  destruct (r !! Z.to_nat x) as [b|] eqn:Hb; [|done].
  pose proof (rect_lookup _ _ _ Hrect Hr).
  apply lookup_lt_Some in Hr, Hb.
  unfold nrows. lia.
Qed.

(** Membership in the two lists, for a raster of the cleaner's shape. *)
Lemma elem_of_find_network_points self skeleton endpoints intersections p :
  fits self skeleton →
  find_network_points self skeleton = Some (endpoints, intersections) →
  (p ∈ endpoints
     ↔ pixel skeleton p.1 p.2 = true ∧ neighbor_count skeleton p.1 p.2 = 1%Z) ∧
  (p ∈ intersections
     ↔ pixel skeleton p.1 p.2 = true ∧ (neighbor_count skeleton p.1 p.2 > 2)%Z).
Proof.
  intros (Hh & Hw & Hrect) [-> ->]%find_network_points_closed.
  rewrite !elem_of_scan, Hh, Hw.
  assert (∀ y x, 1 ≤ y ≤ nrows skeleton → 1 ≤ x ≤ ncols skeleton →
    let X := (Z.of_nat x - 1)%Z in
    let Y := (Z.of_nat y - 1)%Z in
    (p ∈ (contribution (pad skeleton) y x).1
       ↔ p = (X, Y) ∧ pixel skeleton X Y = true ∧ neighbor_count skeleton X Y = 1%Z) ∧
    (p ∈ (contribution (pad skeleton) y x).2
       ↔ p = (X, Y) ∧ pixel skeleton X Y = true
         ∧ (neighbor_count skeleton X Y > 2)%Z)) as Hc.
  { intros y x Hy Hx X Y. rewrite contribution_fits by done. fold X Y.
    destruct (pixel skeleton X Y); [|cbn; rewrite elem_of_nil; naive_solver].
    repeat case_decide; cbn;
      rewrite ?elem_of_nil, ?list_elem_of_singleton; (naive_solver lia). }
  destruct p as [px py]. cbn [fst snd].
  split; (split;
    [ intros (y & x & Hy & Hx & Hp); apply Hc in Hp; [|done..];
      destruct Hp as ([= -> ->] & ? & ?); done
    | intros [Hpix Hn];
      destruct (pixel_true_bounds _ _ _ Hrect Hpix) as [Hbx Hby];
      exists (S (Z.to_nat py)), (S (Z.to_nat px));
      split; [lia|]; split; [lia|];
      apply Hc; [lia..|];
      replace (Z.of_nat (S (Z.to_nat px)) - 1)%Z with px by lia;
      replace (Z.of_nat (S (Z.to_nat py)) - 1)%Z with py by lia; done ]).
Qed.

(** Reported coordinates lie in the scanned rectangle, whatever the
    raster. *)
Lemma find_network_points_bounds self skeleton endpoints intersections p :
  find_network_points self skeleton = Some (endpoints, intersections) →
  p ∈ endpoints ∨ p ∈ intersections →
  (0 ≤ p.1 < Z.of_nat (width self))%Z ∧ (0 ≤ p.2 < Z.of_nat (height self))%Z.
Proof.
  intros [-> ->]%find_network_points_closed. rewrite !elem_of_scan.
  intros [(y & x & Hy & Hx & Hp)|(y & x & Hy & Hx & Hp)];
    destruct (contribution_cases (pad skeleton) y x) as [Hc|[Hc|Hc]];
    rewrite Hc in Hp; cbn in Hp;
    try (by apply elem_of_nil in Hp);
    apply list_elem_of_singleton in Hp as ->; cbn; lia.
Qed.

(** Both lists come out in row-major scan order. *)
Lemma find_network_points_sorted self skeleton endpoints intersections :
  find_network_points self skeleton = Some (endpoints, intersections) →
  StronglySorted scan_lt endpoints ∧ StronglySorted scan_lt intersections.
Proof.
  intros [-> ->]%find_network_points_closed.
  split; apply scan_sorted; intros y x;
    destruct (contribution_cases (pad skeleton) y x) as [Hc|[Hc|Hc]];
    rewrite Hc; cbn; auto.
Qed.

End analyzer.

(** C1. For a raster of the cleaner's shape the classification returns,
    and for every foreground pixel [(x, y)], with [n] the number of
    foreground cells among the 8 cells around it (cells outside the raster
    are background): the pixel is among the endpoints iff [n = 1], among the
    intersections iff [n > 2], in neither list when [n] is 0 or 2.  Only
    foreground pixels are reported, and no pixel is in both lists. *)
Theorem find_network_points_classifies self skeleton :
  fits self skeleton →
  ∃ endpoints intersections,
    find_network_points self skeleton = Some (endpoints, intersections) ∧
    (∀ x y, pixel skeleton x y = true →
       ((x, y) ∈ endpoints ↔ neighbor_count skeleton x y = 1%Z) ∧
       ((x, y) ∈ intersections ↔ (neighbor_count skeleton x y > 2)%Z) ∧
       (neighbor_count skeleton x y = 0%Z ∨ neighbor_count skeleton x y = 2%Z →
        ¬ (x, y) ∈ endpoints ∧ ¬ (x, y) ∈ intersections)) ∧
    (∀ x y, (x, y) ∈ endpoints ∨ (x, y) ∈ intersections →
       pixel skeleton x y = true) ∧
    (∀ p, p ∈ endpoints → p ∈ intersections → False).
Proof.
  intros Hfits.
  destruct (find_network_points_total _ _ Hfits) as [[endpoints intersections] Hrun].
  exists endpoints, intersections. split; [done|].
  pose proof (λ p, elem_of_find_network_points _ _ _ _ p Hfits Hrun) as Hmem.
  split_and!.
  - intros x y Hpix. destruct (Hmem (x, y)) as [He Hi]. cbn in He, Hi.
    rewrite He, Hi. split_and!; [naive_solver..|].
    intros Hn. split; intros [_ ?]; lia.
  - intros x y. destruct (Hmem (x, y)) as [He Hi]. cbn in He, Hi.
    rewrite He, Hi. naive_solver.
  - intros p. destruct (Hmem p) as [He Hi]. rewrite He, Hi.
    intros [_ ?] [_ ?]. lia.
Qed.

Lemma find_network_points_classifies_witness :
  fits Scenario.cleaner Scenario.skeleton ∧
  ∃ endpoints intersections,
    find_network_points Scenario.cleaner Scenario.skeleton
      = Some (endpoints, intersections) ∧
    (∀ x y, pixel Scenario.skeleton x y = true →
       ((x, y) ∈ endpoints ↔ neighbor_count Scenario.skeleton x y = 1%Z) ∧
       ((x, y) ∈ intersections ↔ (neighbor_count Scenario.skeleton x y > 2)%Z) ∧
       (neighbor_count Scenario.skeleton x y = 0%Z
        ∨ neighbor_count Scenario.skeleton x y = 2%Z →
        ¬ (x, y) ∈ endpoints ∧ ¬ (x, y) ∈ intersections)) ∧
    (∀ x y, (x, y) ∈ endpoints ∨ (x, y) ∈ intersections →
       pixel Scenario.skeleton x y = true) ∧
    (∀ p, p ∈ endpoints → p ∈ intersections → False).
Proof.
  split; [vm_compute; repeat constructor|].
  apply (find_network_points_classifies Scenario.cleaner Scenario.skeleton).
  vm_compute. repeat constructor.
Defined.

(** ** The pruner: heap-passing code against its functional view *)

Section pruner_refinement.
Context (route : ndarray → point → point → option (list point)).
Implicit Types (σ : state) (a sk : ndarray) (c l : loc) (p : point).

Lemma frame_refl c h : frame c h h.
Proof. by intros l _ _. Qed.

Lemma frame_trans c h1 h2 h3 : frame c h1 h2 → frame c h2 h3 → frame c h1 h3.
Proof.
  intros H12 H23 l Hl Hsome. rewrite <- (H12 l Hl Hsome).
  apply H23; [done|]. by rewrite (H12 l Hl Hsome).
Qed.

Lemma frame_alloc c a σ : frame c (heap σ) (heap (alloc a σ).2).
Proof.
  intros l _ [x Hx]. cbn. apply lookup_insert_ne.
  intros <-. pose proof (is_fresh (dom (heap σ))) as Hfresh.
  apply Hfresh, elem_of_dom. by eexists.
Qed.

Lemma alloc_fresh a σ : heap σ !! (alloc a σ).1 = None.
Proof. apply not_elem_of_dom, is_fresh. Qed.

Lemma alloc_lookup a σ : heap (alloc a σ).2 !! (alloc a σ).1 = Some a.
Proof. cbn. apply lookup_insert_eq. Qed.

Lemma deref_Some σ l a : heap σ !! l = Some a → deref σ l = a.
Proof. unfold deref. by intros ->. Qed.

Lemma erase_path_fn self c path σ a :
  heap σ !! c = Some a →
  let '(σ', o) := erase_path self c path σ in
  let '(a', evs, o') := erase_fn self path a in
  heap σ' = <[c := a']> (heap σ) ∧ trace σ' = trace σ ++ evs ∧ o = o'.
Proof.
  revert σ a. induction path as [|[py px] rest IH]; intros σ a Ha; cbn.
  { by rewrite insert_id, app_nil_r. }
  rewrite (deref_Some _ _ _ Ha).
  destruct (bounds_check self py px); [|by apply IH].
  destruct (setitem a py px false) as [a1|]; cbn.
  - specialize (IH (emit (Ev_setitem py px) (store c a1 σ)) a1).
    destruct (erase_path _ _ _ _) as [σ' o].
    destruct (erase_fn _ _ _) as [[a' evs] o'].
    destruct IH as (Hh & Ht & Ho); [cbn; apply lookup_insert_eq|].
    split_and!; [|by rewrite Ht; cbn; rewrite <- app_assoc|done].
    rewrite Hh. cbn. apply insert_insert_eq.
  - by rewrite insert_id, app_nil_r.
Qed.

Lemma get_path_fn_spec self skeleton start end_ σ sk :
  heap σ !! skeleton = Some sk →
  let '(path, σ') := get_path route self skeleton start end_ σ in
  let '(path', evs) := get_path_fn route sk start end_ in
  path = path' ∧ trace σ' = trace σ ++ evs ∧
  ∃ l, heap σ !! l = None ∧ heap σ' = <[l := invert sk]> (heap σ).
Proof.
  intros Hsk. unfold get_path, get_path_fn.
  rewrite (deref_Some _ _ _ Hsk). cbn.
  unfold deref at 1. cbn. rewrite lookup_insert_eq. cbn.
  destruct (route _ _ _) as [path|]; cbn;
    (split_and!; [done|by rewrite <- ?app_assoc|]);
    eexists; (split; [apply (alloc_fresh [] σ)|done]).
Qed.

Lemma prune_endpoint_fn self skeleton c ints σ endpoint sk a :
  heap σ !! skeleton = Some sk → heap σ !! c = Some a →
  let σ' := prune_endpoint route self skeleton c ints σ endpoint in
  let '(a', evs) := prune_fn route self sk ints a endpoint in
  heap σ' !! c = Some a' ∧ frame c (heap σ) (heap σ') ∧
  trace σ' = trace σ ++ evs.
Proof.
  intros Hsk Ha. unfold prune_endpoint, prune_fn, target.
  destruct (closest endpoint ints) as [d ci]. cbn [fst snd].
  destruct (dist_lt_int d _);
    [|by rewrite app_nil_r; split_and!; [|apply frame_refl|]].
  destruct ci as [t|];
    [|by rewrite app_nil_r; split_and!; [|apply frame_refl|]].
  pose proof (get_path_fn_spec self skeleton endpoint t σ sk Hsk) as Hget.
  destruct (get_path _ _ _ _ _ _) as [path σ1].
  destruct (get_path_fn _ _ _ _) as [path' evs1].
  destruct Hget as (<- & Ht1 & l & Hl & Hh1).
  assert (heap σ1 !! c = Some a) as Ha1.
  { rewrite Hh1, lookup_insert_ne; [done|]. intros ->. congruence. }
  assert (frame c (heap σ) (heap σ1)) as Hf1.
  { intros l' _ [x Hx]. rewrite Hh1, lookup_insert_ne; [done|].
    intros ->. congruence. }
  pose proof (erase_path_fn self c path σ1 a Ha1) as Herase.
  destruct (erase_path _ _ _ _) as [σ2 o].
  destruct (erase_fn _ _ _) as [[a' evs2] o'].
  destruct Herase as (Hh2 & Ht2 & ->).
  assert (frame c (heap σ1) (heap σ2)) as Hf2.
  { intros l' Hne _. by rewrite Hh2, lookup_insert_ne. }
  destruct o'; cbn; rewrite Hh2, lookup_insert_eq, Ht2, Ht1;
    (split_and!; [done| |by rewrite ?app_nil_r, <- ?app_assoc]);
    apply (frame_trans _ _ _ _ Hf1); by rewrite <- Hh2.
Qed.

Lemma fold_prune_endpoint_fn self skeleton c ints endpoints σ sk a evs0 :
  skeleton ≠ c →
  heap σ !! skeleton = Some sk → heap σ !! c = Some a →
  let σ' := foldl (prune_endpoint route self skeleton c ints) σ endpoints in
  let '(a', evs) :=
    foldl (λ '(a, evs) endpoint,
             let '(a', evs') := prune_fn route self sk ints a endpoint in
             (a', evs ++ evs'))
      (a, evs0) endpoints in
  heap σ' !! c = Some a' ∧ frame c (heap σ) (heap σ') ∧
  ∃ evs', evs = evs0 ++ evs' ∧ trace σ' = trace σ ++ evs'.
Proof.
  intros Hne. revert σ a evs0.
  induction endpoints as [|e endpoints IH]; intros σ a evs0 Hsk Ha; cbn.
  { split_and!; [done|apply frame_refl|]. exists []. by rewrite !app_nil_r. }
  pose proof (prune_endpoint_fn self skeleton c ints σ e sk a Hsk Ha) as Hstep.
  cbn in Hstep.
  destruct (prune_fn route self sk ints a e) as [a1 evs1].
  destruct Hstep as (Ha1 & Hf1 & Ht1).
  specialize (IH (prune_endpoint route self skeleton c ints σ e) a1 (evs0 ++ evs1)).
  cbn in IH. destruct (foldl _ (a1, evs0 ++ evs1) endpoints) as [a' evs].
  destruct IH as (Ha' & Hf' & evs' & -> & Ht'); [|done|].
  { rewrite (Hf1 skeleton Hne); [done|by eexists]. }
  split_and!; [done|by eapply frame_trans|].
  exists (evs1 ++ evs'). by rewrite Ht', Ht1, <- !app_assoc.
Qed.

(** [remove_spurious_roads] allocates the result, leaves every array of
    the heap as it was, and computes [clean_fn]. *)
Lemma remove_spurious_roads_fn self skeleton endpoints ints σ sk :
  heap σ !! skeleton = Some sk →
  let '(c, σ') := remove_spurious_roads route self skeleton endpoints ints σ in
  let '(a', evs) := clean_fn route self sk endpoints ints in
  heap σ !! c = None ∧ heap σ' !! c = Some a' ∧
  (∀ l, is_Some (heap σ !! l) → heap σ' !! l = heap σ !! l) ∧
  trace σ' = trace σ ++ evs.
Proof.
  intros Hsk. unfold remove_spurious_roads, clean_fn.
  rewrite (deref_Some _ _ _ Hsk).
  set (c := (alloc sk σ).1). set (σ0 := (alloc sk σ).2).
  change (alloc sk σ) with (c, σ0). cbn beta iota.
  assert (heap σ !! c = None) as Hc by apply alloc_fresh.
  assert (skeleton ≠ c) as Hne by (intros ->; congruence).
  pose proof (fold_prune_endpoint_fn self skeleton c ints endpoints σ0 sk sk []
                Hne) as Hfold.
  cbv zeta in Hfold. destruct (foldl _ (sk, []) endpoints) as [a' evs].
  destruct Hfold as (Ha' & Hf & evs' & Hevs & Ht).
  { subst σ0 c. cbn. rewrite lookup_insert_ne; [done|]. by intros <-. }
  { apply alloc_lookup. }
  cbn in Hevs. subst evs'.
  split_and!; [done..| |done].
  intros l Hl.
  assert (c ≠ l) as Hlc by (intros <-; rewrite Hc in Hl; by destruct Hl).
  assert (heap σ0 !! l = heap σ !! l) as Hl0.
  { subst σ0. cbn. by apply lookup_insert_ne. }
  rewrite <- Hl0. apply Hf; [done|]. by rewrite Hl0.
Qed.

End pruner_refinement.

(** ** Assignments to single cells *)

Section setitem_props.
Implicit Types (a : ndarray).

Lemma setitem_inv a i j v a' :
  setitem a i j v = Some a' →
  ∃ i' row j', norm_index (nrows a) i = Some i' ∧ a !! i' = Some row ∧
               norm_index (length row) j = Some j' ∧
               a' = <[i' := <[j' := v]> row]> a.
Proof.
  unfold setitem. intros H.
  destruct (norm_index (nrows a) i) as [i'|]; [|done]. cbn in H.
  destruct (a !! i') as [row|] eqn:Hrow; [|done]. cbn in H.
  destruct (norm_index (length row) j) as [j'|] eqn:Hj; [|done]. cbn in H.
  simplify_eq. by exists i', row, j'.
Qed.

Lemma setitem_same_shape a i j v a' :
  setitem a i j v = Some a' → same_shape a a'.
Proof.
  intros (i' & row & j' & _ & Hrow & _ & ->)%setitem_inv. unfold same_shape.
  rewrite list_fmap_insert, length_insert. symmetry.
  apply list_insert_id. by rewrite list_lookup_fmap, Hrow.
Qed.

Lemma setitem_clears a i j a' x y :
  setitem a i j false = Some a' → pixel a' x y = true → pixel a x y = true.
Proof.
  intros (i' & row & j' & Hi & Hrow & Hj & ->)%setitem_inv. unfold pixel.
  case_decide; [|done].
  rewrite list_lookup_insert. case_decide as Hc; [|done].
  destruct Hc as [<- _]. rewrite Hrow. cbn.
  rewrite list_lookup_insert. by case_decide.
Qed.

Lemma setitem_in_array a py px v a' :
  (0 ≤ py)%Z → (0 ≤ px)%Z → setitem a py px v = Some a' → in_array a py px.
Proof.
  intros Hy Hx (i' & row & j' & Hi & Hrow & Hj & ->)%setitem_inv.
  apply norm_index_nonneg in Hi as [-> _]; [|done].
  apply norm_index_nonneg in Hj as [-> Hlt]; [|done].
  split_and!; [done..|]. rewrite Hrow. cbn. by apply lookup_lt_is_Some_2.
Qed.

Lemma same_shape_refl a : same_shape a a.
Proof. done. Qed.

Lemma same_shape_trans a b c : same_shape a b → same_shape b c → same_shape a c.
Proof. unfold same_shape. congruence. Qed.

Lemma same_shape_nrows a b : same_shape a b → nrows a = nrows b.
Proof.
  unfold same_shape, nrows. intros H.
  by rewrite <- (length_fmap length a), H, length_fmap.
Qed.

Lemma same_shape_ncols a b : same_shape a b → ncols a = ncols b.
Proof. unfold same_shape. destruct a, b; cbn; congruence. Qed.

Lemma same_shape_rect a b : same_shape a b → rect a → rect b.
Proof.
  intros Hs Hrect. unfold rect. rewrite <- (same_shape_ncols _ _ Hs).
  apply Forall_lookup. intros i r Hr.
  assert ((length <$> a) !! i = Some (length r)) as Ha.
  { rewrite Hs, list_lookup_fmap, Hr. done. }
  rewrite list_lookup_fmap in Ha.
  destruct (a !! i) as [r'|] eqn:Hr'; [|done]. cbn in Ha.
  pose proof (rect_lookup _ _ _ Hrect Hr'). congruence.
Qed.

Lemma same_shape_in_array a b py px :
  same_shape a b → in_array a py px → in_array b py px.
Proof.
  intros Hs (Hy & Hx & Hcell). split_and!; [done..|].
  assert ((length <$> a) !! Z.to_nat py = (length <$> b) !! Z.to_nat py) as Hrow
    by (by rewrite Hs).
  rewrite !list_lookup_fmap in Hrow.
  destruct (a !! Z.to_nat py) as [r|]; [|by destruct Hcell].
  destruct (b !! Z.to_nat py) as [r'|]; [|done]. cbn in *.
  apply lookup_lt_is_Some. apply lookup_lt_is_Some in Hcell.
  simplify_eq. lia.
Qed.

Lemma below_refl a : below a a.
Proof. by split. Qed.

Lemma below_trans a b c : below a b → below b c → below a c.
Proof.
  intros [Hs1 Hp1] [Hs2 Hp2]. split; [by eapply same_shape_trans|]. auto.
Qed.

Lemma setitem_below a i j a' : setitem a i j false = Some a' → below a a'.
Proof.
  intros H. split; [by eapply setitem_same_shape|].
  intros x y. by eapply setitem_clears.
Qed.

Lemma setitem_pixel a py px v a' x y :
  (0 ≤ py)%Z → (0 ≤ px)%Z → setitem a py px v = Some a' →
  pixel a' x y = if decide (x = px ∧ y = py) then v else pixel a x y.
Proof.
  intros Hy Hx (i' & row & j' & Hi & Hrow & Hj & ->)%setitem_inv.
  apply norm_index_nonneg in Hi as [-> Hlt]; [|done].
  apply norm_index_nonneg in Hj as [-> Hlt']; [|done].
  unfold pixel. case_decide as Hxy; [|by rewrite decide_False by lia].
  rewrite list_lookup_insert.
  destruct (decide (y = py)) as [-> |Hne].
  - rewrite decide_True by done. rewrite Hrow. cbn.
    rewrite list_lookup_insert.
    destruct (decide (x = px)) as [-> |Hne].
    + by rewrite !decide_True by done.
    + by rewrite !decide_False by lia.
  - by rewrite !decide_False by lia.
Qed.

(** Whether an assignment raises depends on the shape alone. *)
Lemma setitem_same_shape_Some a b i j v a' :
  same_shape a b → setitem a i j v = Some a' → is_Some (setitem b i j v).
Proof.
  intros Hs (i' & row & j' & Hi & Hrow & Hj & _)%setitem_inv.
  unfold setitem. rewrite <- (same_shape_nrows _ _ Hs), Hi. cbn.
  assert ((length <$> b) !! i' = Some (length row)) as Hb.
  { rewrite <- Hs, list_lookup_fmap, Hrow. done. }
  rewrite list_lookup_fmap in Hb.
  destruct (b !! i') as [row'|]; [|done]. cbn in Hb. injection Hb as Hb.
  cbn. rewrite Hb, Hj. by eexists.
Qed.

End setitem_props.

(** ** The closest intersection *)

Section closest_props.
Implicit Types (p e i j : point) (ints : list point).

Lemma closest_snoc e ints j :
  closest e (ints ++ [j]) = closer e (closest e ints) j.
Proof. unfold closest. by rewrite foldl_snoc. Qed.

(** The loop keeps the first intersection among those at the least
    distance. *)
Lemma closest_spec e ints :
  (ints = [] ∧ closest e ints = (Inf, None)) ∨
  ∃ l1 i l2, ints = l1 ++ i :: l2 ∧ closest e ints = (euclid e i, Some i) ∧
    (∀ j, j ∈ l1 → sq_dist e i < sq_dist e j)%Z ∧
    (∀ j, j ∈ l2 → sq_dist e i ≤ sq_dist e j)%Z.
Proof.
  induction ints as [|j ints IH] using rev_ind; [by left|]. right.
  rewrite closest_snoc.
  destruct IH as [[-> ->]|(l1 & i & l2 & -> & -> & H1 & H2)].
  - exists [], j, []. split_and!; [done..| |]; by intros ? ?%elem_of_nil.
  - unfold closer, euclid. cbn.
    case_bool_decide as Hlt.
    + exists (l1 ++ i :: l2), j, []. split_and!; [done..| |].
      * intros k [Hk|[->|Hk]%elem_of_cons]%elem_of_app; [|lia|].
        -- specialize (H1 k Hk). lia.
        -- specialize (H2 k Hk). lia.
      * by intros ? ?%elem_of_nil.
    + exists l1, i, (l2 ++ [j]). split_and!; [by rewrite <- app_assoc|done..|].
      intros k [Hk| ->%list_elem_of_singleton]%elem_of_app; [by apply H2|lia].
Qed.

Lemma closest_None e ints d : closest e ints = (d, None) → ints = [] ∧ d = Inf.
Proof.
  destruct (closest_spec e ints) as [[-> ->]|(l1 & i & l2 & _ & -> & _)];
    [by intros [= <-]|done].
Qed.

Lemma closest_Some e ints d i :
  closest e ints = (d, Some i) →
  d = euclid e i ∧
  ∃ l1 l2, ints = l1 ++ i :: l2 ∧
    (∀ j, j ∈ l1 → sq_dist e i < sq_dist e j)%Z ∧
    (∀ j, j ∈ l2 → sq_dist e i ≤ sq_dist e j)%Z.
Proof.
  destruct (closest_spec e ints) as [[-> ->]|(l1 & i' & l2 & -> & -> & H1 & H2)];
    [done|]. intros [= <- <-]. split; [done|]. by exists l1, l2.
Qed.

(** The guard of the pruning branch. *)
Lemma target_Some self ints e t :
  target self ints e = Some t ↔
  (0 < min_road_length self)%Z ∧
  (sq_dist e t < min_road_length self * min_road_length self)%Z ∧
  ∃ l1 l2, ints = l1 ++ t :: l2 ∧
    (∀ j, j ∈ l1 → sq_dist e t < sq_dist e j)%Z ∧
    (∀ j, j ∈ l2 → sq_dist e t ≤ sq_dist e j)%Z.
Proof.
  unfold target. destruct (closest e ints) as [d ci] eqn:Hc. cbn.
  split.
  - destruct (dist_lt_int d _) eqn:Hd; [|done]. intros ->.
    apply closest_Some in Hc as (-> & l1 & l2 & -> & H1 & H2).
    cbn in Hd. apply bool_decide_eq_true in Hd as [??].
    split_and!; [done..|]. by exists l1, l2.
  - intros (Ht & Hlt & l1 & l2 & -> & H1 & H2).
    destruct (closest_spec e (l1 ++ t :: l2))
      as [[Hnil _]|(l1' & i & l2' & Heq & Hc' & H1' & H2')]; [by destruct l1|].
    rewrite Hc in Hc'. injection Hc' as -> ->.
    assert (sq_dist e i ≤ sq_dist e t)%Z as Hle.
    { assert (t ∈ l1' ++ i :: l2') as Hin by (rewrite <- Heq; set_solver).
      apply elem_of_app in Hin as [Hin|[->|Hin]%elem_of_cons]; [|lia|].
      - specialize (H1' _ Hin). lia.
      - by apply H2'. }
    assert (i = t) as ->.
    { destruct (decide (i = t)) as [|Hne]; [done|].
      assert (i ∈ l1 ++ t :: l2) as Hin by (rewrite Heq; set_solver).
      apply elem_of_app in Hin as [Hin|[->|Hin]%elem_of_cons]; [|done|].
      - specialize (H1 _ Hin). lia.
      - (* a tie after [t]: then [t] lies before [i] in the other
           decomposition, where distances are strictly larger *)
        assert (sq_dist e i = sq_dist e t) as Htie
          by (specialize (H2 _ Hin); lia).
        assert (t ∈ l1').
        { apply (f_equal (λ l, take (length l1) l)) in Heq as Htk.
          rewrite take_app_length in Htk.
          destruct (decide (length l1' ≤ length l1)) as [Hlen|Hlen].
          - exfalso.
            apply (f_equal (λ l, l !! length l1')) in Heq.
            rewrite (list_lookup_middle l1' l2' i (length l1')) in Heq by done.
            destruct (decide (length l1' = length l1)) as [Heql|Hneql].
            + rewrite Heql, list_lookup_middle in Heq by done. congruence.
            + rewrite lookup_app_l in Heq by lia.
              apply list_elem_of_lookup_2 in Heq. specialize (H1 _ Heq). lia.
          - apply (f_equal (λ l, l !! length l1)) in Heq.
            rewrite list_lookup_middle in Heq by done.
            rewrite lookup_app_l in Heq by lia. symmetry in Heq.
            by apply list_elem_of_lookup_2 in Heq. }
        specialize (H1' t H). lia. }
    cbn. rewrite bool_decide_eq_true_2; done.
Qed.

Lemma target_None self ints e :
  target self ints e = None ↔ ∀ i, i ∈ ints → dist_ge e i (min_road_length self).
Proof.
  unfold dist_ge. split.
  - intros Hnone i Hi.
    destruct (decide (0 < min_road_length self
                      ∧ sq_dist e i < min_road_length self * min_road_length self)%Z)
      as [[Hpos Hlt]|]; [|lia].
    exfalso. unfold target in Hnone.
    destruct (closest e ints) as [d ci] eqn:Hc. cbn in Hnone.
    destruct ci as [t|].
    + apply closest_Some in Hc as (-> & l1 & l2 & -> & H1 & H2).
      assert (sq_dist e t ≤ sq_dist e i)%Z.
      { apply elem_of_app in Hi as [Hi|[->|Hi]%elem_of_cons]; [|lia|by apply H2].
        specialize (H1 _ Hi). lia. }
      cbn in Hnone. rewrite bool_decide_eq_true_2 in Hnone; [done|lia].
    + apply closest_None in Hc as [-> _]. by apply elem_of_nil in Hi.
  - intros Hfar. destruct (target self ints e) as [t|] eqn:Ht; [|done].
    apply target_Some in Ht as (? & ? & l1 & l2 & -> & _).
    assert (t ∈ l1 ++ t :: l2) as Hin by set_solver.
    specialize (Hfar t Hin). lia.
Qed.

Lemma target_mono self1 self2 ints e t :
  (min_road_length self1 ≤ min_road_length self2)%Z →
  target self1 ints e = Some t → target self2 ints e = Some t.
Proof.
  intros Hle. rewrite !target_Some. intros (Hpos & Hlt & Hrest).
  pose proof (sq_dist e t). split_and!; [lia|nia|done].
Qed.

End closest_props.

(** ** The functional view *)

Section functional_props.
Context (route : ndarray → point → point → option (list point)).
Implicit Types (a sk : ndarray) (e p : point) (evs : list event).

Lemma erase_fn_below self path a : below a (erase_fn self path a).1.1.
Proof.
  revert a. induction path as [|[py px] rest IH]; intros a; cbn;
    [apply below_refl|].
  destruct (bounds_check self py px); [|apply IH].
  destruct (setitem a py px false) as [a1|] eqn:Hset; [|apply below_refl].
  specialize (IH a1). destruct (erase_fn self rest a1) as [[a2 evs] o]. cbn in *.
  eapply below_trans; [by eapply setitem_below|done].
Qed.

Lemma erase_fn_events self path a ev :
  ev ∈ (erase_fn self path a).1.2 →
  ∃ py px, ev = Ev_setitem py px ∧ (py, px) ∈ path ∧
           bounds_check self py px = true ∧ in_array a py px.
Proof.
  revert a. induction path as [|[py px] rest IH]; intros a; cbn;
    [by intros ?%elem_of_nil|].
  destruct (bounds_check self py px) eqn:Hb.
  - destruct (setitem a py px false) as [a1|] eqn:Hset;
      [|by intros ?%elem_of_nil].
    specialize (IH a1). destruct (erase_fn self rest a1) as [[a2 evs] o].
    cbn in *. apply bool_decide_eq_true in Hb as Hb'.
    intros [->|Hev]%elem_of_cons.
    + exists py, px. split_and!; [done|left|done|].
      eapply setitem_in_array; [| |done]; lia.
    + destruct (IH Hev) as (qy & qx & -> & Hin & Hq & Harr).
      exists qy, qx. split_and!; [done|by right|done|].
      eapply same_shape_in_array; [|done].
      symmetry. by eapply setitem_same_shape.
  - intros Hev. destruct (IH _ Hev) as (qy & qx & -> & Hin & Hq & Harr).
    exists qy, qx. split_and!; [done|by right|done..].
Qed.

(** Coordinates that fail the bounds check are skipped. *)
Lemma erase_fn_filter self path a :
  erase_fn self path a
  = erase_fn self (filter (λ p, bounds_check self p.1 p.2 = true) path) a.
Proof.
  revert a. induction path as [|[py px] rest IH]; intros a; [done|].
  rewrite filter_cons. cbn [fst snd erase_fn].
  destruct (bounds_check self py px) eqn:Hb.
  - rewrite decide_True by done. cbn [erase_fn]. rewrite Hb.
    destruct (setitem a py px false); [|done]. by rewrite IH.
  - rewrite decide_False by done. apply IH.
Qed.

Lemma routed_app evs1 evs2 : routed (evs1 ++ evs2) = routed evs1 ++ routed evs2.
Proof. apply omap_app. Qed.

Lemma assigned_app evs1 evs2 :
  assigned (evs1 ++ evs2) = assigned evs1 ++ assigned evs2.
Proof. apply omap_app. Qed.

Lemma routed_erase_fn self path a : routed (erase_fn self path a).1.2 = [].
Proof.
  revert a. induction path as [|[py px] rest IH]; intros a; cbn; [done|].
  destruct (bounds_check self py px); [|apply IH].
  destruct (setitem a py px false) as [a1|]; [|done].
  specialize (IH a1). by destruct (erase_fn self rest a1) as [[a2 evs] o].
Qed.

Lemma prune_fn_skip self sk ints a e :
  target self ints e = None → prune_fn route self sk ints a e = (a, []).
Proof. unfold prune_fn. by intros ->. Qed.

Lemma prune_fn_below self sk ints a e :
  below a (prune_fn route self sk ints a e).1.
Proof.
  unfold prune_fn. destruct (target self ints e) as [t|]; [|apply below_refl].
  destruct (get_path_fn route sk e t) as [path evs1].
  pose proof (erase_fn_below self path a).
  by destruct (erase_fn self path a) as [[a' evs2] o].
Qed.

Lemma prune_fn_routed self sk ints a e :
  routed (prune_fn route self sk ints a e).2
  = match target self ints e with Some _ => [e] | None => [] end.
Proof.
  unfold prune_fn. destruct (target self ints e) as [t|]; [|done].
  destruct (get_path_fn route sk e t) as [path evs1] eqn:Hget.
  pose proof (routed_erase_fn self path a) as Hr.
  destruct (erase_fn self path a) as [[a' evs2] o]. cbn [fst snd] in Hr |- *.
  rewrite !routed_app, Hr.
  unfold get_path_fn in Hget.
  destruct (route _ _ _); simplify_eq; destruct e, o; done.
Qed.

Lemma prune_fn_assigned self sk ints a e py px :
  (py, px) ∈ assigned (prune_fn route self sk ints a e).2 →
  bounds_check self py px = true ∧ in_array a py px.
Proof.
  unfold prune_fn. destruct (target self ints e) as [t|];
    [|by intros ?%elem_of_nil].
  destruct (get_path_fn route sk e t) as [path evs1] eqn:Hget.
  pose proof (erase_fn_events self path a) as Hev.
  destruct (erase_fn self path a) as [[a' evs2] o]. cbn in *.
  unfold assigned. rewrite list_elem_of_omap. intros (ev & Hin & Hsome).
  apply elem_of_app in Hin as [Hin|[Hin|Hin]%elem_of_app].
  - unfold get_path_fn in Hget. destruct (route _ _ _); simplify_eq;
      set_solver.
  - destruct (Hev _ Hin) as (qy & qx & -> & _ & ? & ?). by simplify_eq.
  - destruct o; set_solver.
Qed.

(** Induction over the endpoints processed so far. *)
Lemma clean_fn_ind self sk ints (P : ndarray → list event → Prop) endpoints :
  P sk [] →
  (∀ a evs e, e ∈ endpoints → P a evs →
     P (prune_fn route self sk ints a e).1
       (evs ++ (prune_fn route self sk ints a e).2)) →
  P (clean_fn route self sk endpoints ints).1
    (clean_fn route self sk endpoints ints).2.
Proof.
  unfold clean_fn. intros H0 Hstep.
  enough (∀ a0 evs0, P a0 evs0 →
    let r := foldl (λ '(a, evs) endpoint,
                      let '(a', evs') := prune_fn route self sk ints a endpoint in
                      (a', evs ++ evs')) (a0, evs0) endpoints in
    P r.1 r.2) as H by by apply H.
  induction endpoints as [|e endpoints IH]; intros a0 evs0 Ha0; [done|].
  cbn. specialize (Hstep a0 evs0 e) as He.
  destruct (prune_fn route self sk ints a0 e) as [a1 evs1]. cbn in He.
  apply IH; [|apply He; [left|done]].
  intros a evs e' ?. apply Hstep. by right.
Qed.

Lemma clean_fn_array self sk ints endpoints :
  (clean_fn route self sk endpoints ints).1
  = foldl (λ a e, (prune_fn route self sk ints a e).1) sk endpoints.
Proof.
  unfold clean_fn.
  enough (∀ a0 evs0,
    (foldl (λ '(a, evs) endpoint,
              let '(a', evs') := prune_fn route self sk ints a endpoint in
              (a', evs ++ evs')) (a0, evs0) endpoints).1
    = foldl (λ a e, (prune_fn route self sk ints a e).1) a0 endpoints) as H
    by apply H.
  induction endpoints as [|e endpoints IH]; intros a0 evs0; [done|].
  cbn. destruct (prune_fn route self sk ints a0 e) as [a1 evs1]. apply IH.
Qed.

Lemma clean_fn_routed self sk ints endpoints :
  routed (clean_fn route self sk endpoints ints).2
  = filter (λ e, is_Some (target self ints e)) endpoints.
Proof.
  unfold clean_fn.
  enough (∀ a0 evs0,
    routed (foldl (λ '(a, evs) endpoint,
                     let '(a', evs') := prune_fn route self sk ints a endpoint in
                     (a', evs ++ evs')) (a0, evs0) endpoints).2
    = routed evs0 ++ filter (λ e, is_Some (target self ints e)) endpoints) as H
    by apply H.
  induction endpoints as [|e endpoints IH]; intros a0 evs0;
    [by rewrite app_nil_r|].
  cbn [foldl]. pose proof (prune_fn_routed self sk ints a0 e) as Hr.
  destruct (prune_fn route self sk ints a0 e) as [a1 evs1]. cbn [snd] in Hr.
  rewrite IH, routed_app, Hr, filter_cons.
  destruct (target self ints e) as [t|].
  - rewrite decide_True by by eexists. by rewrite <- app_assoc.
  - rewrite decide_False by (by intros [??]). by rewrite app_nil_r.
Qed.

Lemma clean_fn_below self sk ints endpoints :
  below sk (clean_fn route self sk endpoints ints).1.
Proof.
  apply (clean_fn_ind self sk ints (λ a _, below sk a)); [apply below_refl|].
  intros a evs e _ Ha. eapply below_trans; [done|apply prune_fn_below].
Qed.

Lemma clean_fn_assigned self sk ints endpoints py px :
  (py, px) ∈ assigned (clean_fn route self sk endpoints ints).2 →
  bounds_check self py px = true ∧ in_array sk py px.
Proof.
  revert py px.
  apply (clean_fn_ind self sk ints
           (λ a evs, below sk a ∧
              ∀ py px, (py, px) ∈ assigned evs →
                       bounds_check self py px = true ∧ in_array sk py px)).
  - split; [apply below_refl|]. by intros ?? ?%elem_of_nil.
  - intros a evs e _ [Ha Hevs]. split.
    { eapply below_trans; [done|apply prune_fn_below]. }
    intros py px. rewrite assigned_app.
    intros [Hin|Hin]%elem_of_app; [by apply Hevs|].
    apply prune_fn_assigned in Hin as [? ?]. split; [done|].
    eapply same_shape_in_array; [|done]. symmetry. apply Ha.
Qed.

Lemma assigned_cons py px evs :
  assigned (Ev_setitem py px :: evs) = (py, px) :: assigned evs.
Proof. done. Qed.

(** The assignments of a path depend on the shape of the array alone. *)
Lemma erase_fn_same_shape self path a b :
  same_shape a b →
  (erase_fn self path a).1.2 = (erase_fn self path b).1.2 ∧
  (erase_fn self path a).2 = (erase_fn self path b).2.
Proof.
  revert a b. induction path as [|[py px] rest IH]; intros a b Hs; [done|].
  cbn. destruct (bounds_check self py px); [|by apply IH].
  destruct (setitem a py px false) as [a1|] eqn:Ha.
  - destruct (setitem_same_shape_Some _ _ _ _ _ _ Hs Ha) as [b1 Hb]. rewrite Hb.
    specialize (IH a1 b1).
    destruct (erase_fn self rest a1) as [[a2 evs] o].
    destruct (erase_fn self rest b1) as [[b2 evs'] o']. cbn in *.
    destruct IH as [-> ->]; [|done].
    eapply same_shape_trans; [symmetry; by eapply setitem_same_shape|].
    eapply same_shape_trans; [done|by eapply setitem_same_shape].
  - destruct (setitem b py px false) as [b1|] eqn:Hb; [|done].
    assert (same_shape b a) as Hs' by done.
    destruct (setitem_same_shape_Some _ _ _ _ _ _ Hs' Hb) as [? ?]. congruence.
Qed.

(** A pixel survives a path iff it is foreground and not assigned. *)
Lemma erase_fn_pixel self path a x y :
  pixel (erase_fn self path a).1.1 x y = true
  ↔ pixel a x y = true ∧ (y, x) ∉ assigned (erase_fn self path a).1.2.
Proof.
  revert a. induction path as [|[py px] rest IH]; intros a; cbn.
  { split; [|by intros [? _]]. intros ?. split; [done|]. by intros ?%elem_of_nil. }
  destruct (bounds_check self py px) eqn:Hb; [|apply IH].
  apply bool_decide_eq_true in Hb.
  destruct (setitem a py px false) as [a1|] eqn:Ha; cbn.
  - specialize (IH a1). destruct (erase_fn self rest a1) as [[a2 evs] o].
    cbn in *. rewrite IH, assigned_cons, not_elem_of_cons.
    rewrite (setitem_pixel a py px false a1 x y) by (done || lia).
    case_decide as Hxy.
    + destruct Hxy as [-> ->]. split; [by intros [? _]|].
      intros (_ & Hne & _). by destruct Hne.
    + split.
      * intros [? ?]. split_and!; [done| |done]. intros [= -> ->]. by apply Hxy.
      * intros (? & _ & ?). by split.
  - split; [|by intros [? _]]. intros ?. split; [done|]. by intros ?%elem_of_nil.
Qed.

(** The cells that pruning [e] assigns in an array of the shape of [sk]. *)
Lemma prune_fn_pixel self sk ints a e x y :
  same_shape sk a →
  pixel (prune_fn route self sk ints a e).1 x y = true
  ↔ pixel a x y = true
    ∧ (y, x) ∉ assigned (prune_fn route self sk ints sk e).2.
Proof.
  intros Hs. unfold prune_fn.
  destruct (target self ints e) as [t|];
    [|split; [|by intros [? _]]; intros ?; split; [done|]; by intros ?%elem_of_nil].
  destruct (get_path_fn route sk e t) as [path evs1] eqn:Hget.
  pose proof (erase_fn_pixel self path a x y) as Hpix.
  pose proof (erase_fn_same_shape self path sk a Hs) as [Hevs _].
  destruct (erase_fn self path a) as [[a' evs2] o].
  destruct (erase_fn self path sk) as [[a'' evs2'] o']. cbn in *. subst evs2'.
  rewrite Hpix, !assigned_app.
  assert (assigned evs1 = []) as ->.
  { unfold get_path_fn in Hget. by destruct (route _ _ _); simplify_eq. }
  assert (∀ o, assigned match o with Done => [] | Raised => [Ev_print_endpoint e] end
               = []) as Ho by (by intros []).
  by rewrite !Ho, app_nil_r.
Qed.

Lemma clean_fn_pixel self sk ints endpoints x y :
  pixel (clean_fn route self sk endpoints ints).1 x y = true
  ↔ pixel sk x y = true
    ∧ ∀ e, e ∈ endpoints → (y, x) ∉ assigned (prune_fn route self sk ints sk e).2.
Proof.
  rewrite clean_fn_array.
  enough (∀ a, same_shape sk a →
    pixel (foldl (λ a e, (prune_fn route self sk ints a e).1) a endpoints) x y = true
    ↔ pixel a x y = true
      ∧ ∀ e, e ∈ endpoints →
             (y, x) ∉ assigned (prune_fn route self sk ints sk e).2) as H
    by by apply H.
  induction endpoints as [|e endpoints IH]; intros a Hs; cbn [foldl].
  { split; [|by intros [? _]]. intros ?. split; [done|]. by intros ? ?%elem_of_nil. }
  rewrite IH, prune_fn_pixel by
    (done || (eapply same_shape_trans; [done|apply prune_fn_below])).
  split.
  - intros [[? ?] Hrest]. split; [done|].
    intros e' [-> |?]%elem_of_cons; [done|by apply Hrest].
  - intros [? Hall]. split_and!; [done|apply Hall; left|].
    intros e' ?. apply Hall. by right.
Qed.

Lemma erase_fn_with_min_road_length t self path a :
  erase_fn (with_min_road_length t self) path a = erase_fn self path a.
Proof.
  revert a. induction path as [|[py px] rest IH]; intros a; [done|].
  cbn [erase_fn].
  change (bounds_check (with_min_road_length t self) py px)
    with (bounds_check self py px).
  destruct (bounds_check self py px); [|apply IH].
  destruct (setitem a py px false); [|done]. by rewrite IH.
Qed.

(** Raising the threshold adds assignments, it takes none away. *)
Lemma prune_fn_assigned_mono self sk ints a e t1 t2 c :
  (t1 ≤ t2)%Z →
  c ∈ assigned (prune_fn route (with_min_road_length t1 self) sk ints a e).2 →
  c ∈ assigned (prune_fn route (with_min_road_length t2 self) sk ints a e).2.
Proof.
  intros Hle. unfold prune_fn.
  destruct (target (with_min_road_length t1 self) ints e) as [t|] eqn:Ht;
    [|by intros ?%elem_of_nil].
  rewrite (target_mono (with_min_road_length t1 self)
             (with_min_road_length t2 self) ints e t Hle Ht).
  destruct (get_path_fn route sk e t) as [path evs1].
  by rewrite !erase_fn_with_min_road_length.
Qed.

End functional_props.

(** ** The pruner on the heap *)

Section pruner_props.
Context (route : ndarray → point → point → option (list point)).
Implicit Types (σ : state) (a sk : ndarray) (c l : loc) (e p : point).

Lemma remove_spurious_roads_run self skeleton endpoints ints σ sk :
  heap σ !! skeleton = Some sk →
  let r := remove_spurious_roads route self skeleton endpoints ints σ in
  let f := clean_fn route self sk endpoints ints in
  heap σ !! r.1 = None ∧ heap r.2 !! r.1 = Some f.1 ∧
  (∀ l, is_Some (heap σ !! l) → heap r.2 !! l = heap σ !! l) ∧
  trace r.2 = trace σ ++ f.2.
Proof.
  intros Hsk.
  pose proof (remove_spurious_roads_fn route self skeleton endpoints ints σ sk Hsk)
    as H.
  destruct (remove_spurious_roads _ _ _ _ _ _) as [c σ'].
  by destruct (clean_fn _ _ _ _ _) as [a' evs].
Qed.

Lemma prune_endpoint_skip self skeleton c ints σ e :
  target self ints e = None → prune_endpoint route self skeleton c ints σ e = σ.
Proof.
  unfold target, prune_endpoint. destruct (closest e ints) as [d ci]. cbn.
  destruct (dist_lt_int d _); [|done]. by intros ->.
Qed.

Lemma erase_path_filter self c path σ :
  erase_path self c path σ
  = erase_path self c (filter (λ p, bounds_check self p.1 p.2 = true) path) σ.
Proof.
  revert σ. induction path as [|[py px] rest IH]; intros σ; [done|].
  rewrite filter_cons. cbn [fst snd erase_path].
  destruct (bounds_check self py px) eqn:Hb.
  - rewrite decide_True by done. cbn [erase_path]. rewrite Hb.
    destruct (setitem _ py px false); [|done]. by rewrite IH.
  - rewrite decide_False by done. apply IH.
Qed.

End pruner_props.

(** The cleaner fits the skeleton once [process_sketch] has set its
    dimensions, and the pipeline then runs to its end. *)
Lemma set_dimensions_fits self a : rect a → fits (set_dimensions self a) a.
Proof. by intros Hrect. Qed.

Lemma process_skeleton_total route self skeleton σ sk :
  heap σ !! skeleton = Some sk → rect sk →
  is_Some (process_skeleton route self skeleton σ).
Proof.
  intros Hsk Hrect. unfold process_skeleton. rewrite (deref_Some _ _ _ Hsk).
  destruct (find_network_points_total (set_dimensions self sk) sk) as [[es js] ->];
    [by apply set_dimensions_fits|].
  by eexists.
Qed.

(** ** Main results about the pruner *)

(** C3. With no endpoint or no intersection, pruning returns a raster equal
    to the skeleton, pixel for pixel, and neither calls the pathfinder nor
    assigns a pixel. *)
Theorem remove_spurious_roads_degenerate route self skeleton endpoints ints σ sk :
  heap σ !! skeleton = Some sk →
  endpoints = [] ∨ ints = [] →
  let '(c, σ') := remove_spurious_roads route self skeleton endpoints ints σ in
  heap σ' !! c = Some sk ∧
  (∀ x y, pixel (deref σ' c) x y = pixel sk x y) ∧
  trace σ' = trace σ.
Proof.
  intros Hsk Hempty.
  pose proof (remove_spurious_roads_run route self skeleton endpoints ints σ sk Hsk)
    as (_ & Hc & _ & Ht).
  destruct (remove_spurious_roads _ _ _ _ _ _) as [c σ']. cbn in Hc, Ht.
  assert (clean_fn route self sk endpoints ints = (sk, [])) as Hfn.
  { destruct Hempty as [-> | ->]; [done|].
    rewrite (surjective_pairing (clean_fn route self sk endpoints [])).
    apply (clean_fn_ind route self sk [] (λ a evs, (a, evs) = (sk, [])));
      [done|].
    intros a' evs' e _ [= -> ->].
    by rewrite prune_fn_skip by (by apply target_None; intros ? ?%elem_of_nil). }
  rewrite Hfn in Hc, Ht. cbn in Hc, Ht.
  split_and!; [done| |by rewrite Ht, app_nil_r].
  intros x y. by rewrite (deref_Some _ _ _ Hc).
Qed.

Lemma remove_spurious_roads_degenerate_witness :
  let '(c, σ') :=
    remove_spurious_roads Reference.route Scenario.cleaner Scenario.skeleton_ref
      Scenario.endpoints [] Scenario.σ0 in
  heap σ' !! c = Some Scenario.skeleton ∧
  (∀ x y, pixel (deref σ' c) x y = pixel Scenario.skeleton x y) ∧
  trace σ' = trace Scenario.σ0.
Proof.
  apply (remove_spurious_roads_degenerate Reference.route Scenario.cleaner
           Scenario.skeleton_ref Scenario.endpoints [] Scenario.σ0
           Scenario.skeleton).
  - reflexivity.
  - right. reflexivity.
Defined.

(** C4. For one skeleton and one pair of endpoint and intersection lists,
    and thresholds [t1 <= t2]: the endpoints that are pruned (those from
    which the pathfinder is called) with [min_road_length = t1] are among
    those pruned with [min_road_length = t2], in the same order, so there
    are no more of them; and every pixel that is left with [t2] is left
    with [t1]. *)
Theorem pruned_endpoints_monotone route self skeleton endpoints ints σ sk t1 t2 :
  heap σ !! skeleton = Some sk →
  (t1 ≤ t2)%Z →
  let run t :=
    remove_spurious_roads route (with_min_road_length t self) skeleton
      endpoints ints σ in
  routed (trace (run t1).2) `sublist_of` routed (trace (run t2).2) ∧
  (∀ e, e ∈ routed (trace (run t1).2) → e ∈ routed (trace (run t2).2)) ∧
  length (routed (trace (run t1).2)) ≤ length (routed (trace (run t2).2)) ∧
  (∀ x y, pixel (deref (run t2).2 (run t2).1) x y = true →
          pixel (deref (run t1).2 (run t1).1) x y = true).
Proof.
  intros Hsk Hle run.
  pose proof (remove_spurious_roads_run route (with_min_road_length t1 self)
                skeleton endpoints ints σ sk Hsk) as (_ & Hc1 & _ & Ht1).
  pose proof (remove_spurious_roads_run route (with_min_road_length t2 self)
                skeleton endpoints ints σ sk Hsk) as (_ & Hc2 & _ & Ht2).
  cbv zeta in Hc1, Hc2, Ht1, Ht2. fold (run t1) in Hc1, Ht1. fold (run t2) in Hc2, Ht2.
  assert (routed (trace (run t1).2) `sublist_of` routed (trace (run t2).2)) as Hsub.
  { rewrite Ht1, Ht2, !routed_app, !clean_fn_routed.
    apply sublist_app; [done|].
    clear -Hle.
    induction endpoints as [|e endpoints IH]; [done|].
    rewrite !filter_cons.
    destruct (decide (is_Some (target (with_min_road_length t1 self) ints e)))
      as [[t Ht]|].
    - rewrite decide_True; [by apply sublist_skip|].
      exists t. by apply (target_mono (with_min_road_length t1 self)).
    - case_decide; [by apply sublist_cons|done]. }
  split_and!; [done| |by apply sublist_length|].
  - intros e He. by eapply elem_of_sublist.
  - intros x y. rewrite (deref_Some _ _ _ Hc1), (deref_Some _ _ _ Hc2).
    rewrite !clean_fn_pixel. intros [Hpix Hkept]. split; [done|].
    intros e He Hin. apply (Hkept e He).
    by apply (prune_fn_assigned_mono route self sk ints sk e t1 t2).
Qed.

Lemma pruned_endpoints_monotone_witness :
  let run t :=
    remove_spurious_roads Reference.route
      (with_min_road_length t Scenario.cleaner) Scenario.skeleton_ref
      Scenario.endpoints Scenario.intersections Scenario.σ0 in
  routed (trace (run 3%Z).2) `sublist_of` routed (trace (run 4%Z).2) ∧
  (∀ e, e ∈ routed (trace (run 3%Z).2) → e ∈ routed (trace (run 4%Z).2)) ∧
  length (routed (trace (run 3%Z).2)) ≤ length (routed (trace (run 4%Z).2)) ∧
  (∀ x y, pixel (deref (run 4%Z).2 (run 4%Z).1) x y = true →
          pixel (deref (run 3%Z).2 (run 3%Z).1) x y = true).
Proof.
  apply (pruned_endpoints_monotone Reference.route Scenario.cleaner
           Scenario.skeleton_ref Scenario.endpoints Scenario.intersections
           Scenario.σ0 Scenario.skeleton 3%Z 4%Z).
  - reflexivity.
  - lia.
Defined.

(** C5. An endpoint whose distance to every intersection is at least
    [min_road_length] is skipped: the state is left as it was, so the
    pathfinder is not called and no pixel is assigned.  Conversely, when the
    step changes anything, the closest intersection is at a distance
    strictly below [min_road_length]. *)
Theorem far_endpoint_skipped route self skeleton c ints σ e :
  ((∀ i, i ∈ ints → dist_ge e i (min_road_length self)) →
   prune_endpoint route self skeleton c ints σ e = σ) ∧
  (prune_endpoint route self skeleton c ints σ e ≠ σ →
   ∃ i, i ∈ ints ∧ (∀ j, j ∈ ints → sq_dist e i ≤ sq_dist e j)%Z ∧
        ¬ dist_ge e i (min_road_length self)).
Proof.
  split.
  - intros Hfar. by apply prune_endpoint_skip, target_None.
  - intros Hchanged.
    destruct (target self ints e) as [t|] eqn:Ht;
      [|by rewrite prune_endpoint_skip in Hchanged].
    apply target_Some in Ht as (Hpos & Hlt & l1 & l2 & -> & H1 & H2).
    exists t. split_and!; [set_solver| |unfold dist_ge; lia].
    intros j [Hj|[->|Hj]%elem_of_cons]%elem_of_app; [|lia|by apply H2].
    specialize (H1 _ Hj). lia.
Qed.

Lemma far_endpoint_skipped_witness :
  (∀ i, i ∈ Scenario.intersections →
        dist_ge (8, 5)%Z i (min_road_length (with_min_road_length 3 Scenario.cleaner))) ∧
  prune_endpoint Reference.route (with_min_road_length 3 Scenario.cleaner)
    Scenario.skeleton_ref 2%positive Scenario.intersections Scenario.σ0 (8, 5)%Z
  = Scenario.σ0.
Proof.
  assert (∀ i, i ∈ Scenario.intersections →
            dist_ge (8, 5)%Z i
              (min_road_length (with_min_road_length 3 Scenario.cleaner))) as Hfar.
  { intros i Hi. unfold Scenario.intersections in Hi.
    repeat (apply elem_of_cons in Hi as [-> |Hi]; [right; vm_compute; discriminate|]).
    by apply elem_of_nil in Hi. }
  split; [exact Hfar|].
  exact (proj1 (far_endpoint_skipped Reference.route
                  (with_min_road_length 3 Scenario.cleaner) Scenario.skeleton_ref
                  2%positive Scenario.intersections Scenario.σ0 (8, 5)%Z) Hfar).
Defined.

(** C6. Pruning returns a reference that was not allocated before, to an
    array of the height and width of the skeleton (indeed with rows of the
    same lengths); the skeleton, and every other array of the heap, holds
    afterwards what it held before: neither the assignments nor the cost
    arrays built for the pathfinder touch it. *)
Theorem remove_spurious_roads_fresh_copy route self skeleton endpoints ints σ sk :
  heap σ !! skeleton = Some sk →
  let '(c, σ') := remove_spurious_roads route self skeleton endpoints ints σ in
  heap σ !! c = None ∧ c ≠ skeleton ∧
  (∃ cleaned, heap σ' !! c = Some cleaned ∧
     nrows cleaned = nrows sk ∧ ncols cleaned = ncols sk ∧ same_shape sk cleaned) ∧
  heap σ' !! skeleton = Some sk ∧
  (∀ l, is_Some (heap σ !! l) → heap σ' !! l = heap σ !! l).
Proof.
  intros Hsk.
  pose proof (remove_spurious_roads_run route self skeleton endpoints ints σ sk Hsk)
    as (Hfresh & Hc & Hframe & _).
  destruct (remove_spurious_roads _ _ _ _ _ _) as [c σ']. cbn in Hfresh, Hc, Hframe.
  destruct (clean_fn_below route self sk ints endpoints) as [Hshape _].
  split_and!; [done|congruence| | |done].
  - eexists. split; [done|].
    split_and!; [symmetry; by apply same_shape_nrows
                |symmetry; by apply same_shape_ncols|done].
  - rewrite Hframe; [done|by eexists].
Qed.

Lemma remove_spurious_roads_fresh_copy_witness :
  let '(c, σ') :=
    remove_spurious_roads Reference.route Scenario.cleaner Scenario.skeleton_ref
      Scenario.endpoints Scenario.intersections Scenario.σ0 in
  heap Scenario.σ0 !! c = None ∧ c ≠ Scenario.skeleton_ref ∧
  (∃ cleaned, heap σ' !! c = Some cleaned ∧
     nrows cleaned = nrows Scenario.skeleton ∧
     ncols cleaned = ncols Scenario.skeleton ∧
     same_shape Scenario.skeleton cleaned) ∧
  heap σ' !! Scenario.skeleton_ref = Some Scenario.skeleton ∧
  (∀ l, is_Some (heap Scenario.σ0 !! l) → heap σ' !! l = heap Scenario.σ0 !! l).
Proof.
  apply (remove_spurious_roads_fresh_copy Reference.route Scenario.cleaner
           Scenario.skeleton_ref Scenario.endpoints Scenario.intersections
           Scenario.σ0 Scenario.skeleton).
  reflexivity.
Defined.

(** C7. For a raster of the cleaner's shape: every coordinate [(x, y)] that
    the classification reports has [0 <= x < width] and [0 <= y < height] of
    the raster; every assignment [cleaned[py, px] = False] that pruning
    performs is at a cell of the raster, [0 <= py < height] and
    [0 <= px < width]; and a path is erased exactly as the path without its
    out-of-range coordinates is: those are skipped. *)
Theorem coordinates_in_bounds route self skeleton endpoints ints σ sk :
  fits self sk →
  heap σ !! skeleton = Some sk →
  (∀ endpoints' ints' p,
     find_network_points self sk = Some (endpoints', ints') →
     p ∈ endpoints' ∨ p ∈ ints' →
     (0 ≤ p.1 < Z.of_nat (ncols sk))%Z ∧ (0 ≤ p.2 < Z.of_nat (nrows sk))%Z) ∧
  (∃ evs,
     trace (remove_spurious_roads route self skeleton endpoints ints σ).2
     = trace σ ++ evs ∧
     ∀ py px, (py, px) ∈ assigned evs →
              in_raster sk (py, px) ∧ in_array sk py px) ∧
  (∀ c path σ1,
     erase_path self c path σ1
     = erase_path self c (filter (in_raster sk) path) σ1).
Proof.
  intros (Hh & Hw & Hrect) Hsk. split_and!.
  - intros endpoints' ints' p Hrun Hp. rewrite <- Hh, <- Hw.
    by eapply find_network_points_bounds.
  - pose proof (remove_spurious_roads_run route self skeleton endpoints ints σ sk
                  Hsk) as (_ & _ & _ & Ht).
    eexists. split; [exact Ht|].
    intros py px [Hb Harr]%clean_fn_assigned.
    apply bool_decide_eq_true in Hb. unfold in_raster. cbn.
    rewrite <- Hh, <- Hw. by split.
  - intros c path σ1. rewrite erase_path_filter. f_equal.
    apply list_filter_iff. intros [py px]. unfold bounds_check, in_raster. cbn.
    by rewrite bool_decide_eq_true, Hh, Hw.
Qed.

Lemma coordinates_in_bounds_witness :
  fits Scenario.cleaner Scenario.skeleton ∧
  (∀ endpoints' ints' p,
     find_network_points Scenario.cleaner Scenario.skeleton
       = Some (endpoints', ints') →
     p ∈ endpoints' ∨ p ∈ ints' →
     (0 ≤ p.1 < Z.of_nat (ncols Scenario.skeleton))%Z
     ∧ (0 ≤ p.2 < Z.of_nat (nrows Scenario.skeleton))%Z) ∧
  (∃ evs,
     trace (remove_spurious_roads Reference.route Scenario.cleaner
              Scenario.skeleton_ref Scenario.endpoints Scenario.intersections
              Scenario.σ0).2
     = trace Scenario.σ0 ++ evs ∧
     ∀ py px, (py, px) ∈ assigned evs →
              in_raster Scenario.skeleton (py, px)
              ∧ in_array Scenario.skeleton py px) ∧
  (∀ c path σ1,
     erase_path Scenario.cleaner c path σ1
     = erase_path Scenario.cleaner c (filter (in_raster Scenario.skeleton) path) σ1).
Proof.
  assert (fits Scenario.cleaner Scenario.skeleton) as Hfits
    by (vm_compute; repeat constructor).
  split; [exact Hfits|].
  apply (coordinates_in_bounds Reference.route Scenario.cleaner
           Scenario.skeleton_ref Scenario.endpoints Scenario.intersections
           Scenario.σ0 Scenario.skeleton Hfits).
  reflexivity.
Defined.

(** C8. When the one call that pruning makes for an endpoint, the search
    from the endpoint to the intersection chosen for it, fails (the
    pathfinder raises, or finds no route and raises), that endpoint's step
    leaves the cleaned array as it was, and the run goes on: it returns the
    cleaned array that it returns without this endpoint in the list.  The
    pathfinder may succeed between any other two cells. *)
Theorem pathfinding_failure_is_local
    route self skeleton ints σ sk endpoints1 e endpoints2 :
  heap σ !! skeleton = Some sk →
  (∀ t, target self ints e = Some t →
        route (invert sk) (e.2, e.1) (t.2, t.1) = None) →
  (∀ c σ1 a, heap σ1 !! skeleton = Some sk → heap σ1 !! c = Some a →
     heap (prune_endpoint route self skeleton c ints σ1 e) !! c = Some a) ∧
  let r := remove_spurious_roads route self skeleton
             (endpoints1 ++ e :: endpoints2) ints σ in
  let r' := remove_spurious_roads route self skeleton
              (endpoints1 ++ endpoints2) ints σ in
  is_Some (heap r.2 !! r.1) ∧ heap r.2 !! r.1 = heap r'.2 !! r'.1.
Proof.
  intros Hsk Hfail.
  assert (∀ a, (prune_fn route self sk ints a e).1 = a) as Hstep.
  { intros a. unfold prune_fn.
    destruct (target self ints e) as [t|] eqn:Ht; [|done].
    unfold get_path_fn. by rewrite (Hfail t eq_refl). }
  split.
  - intros c σ1 a Hsk1 Ha.
    pose proof (prune_endpoint_fn route self skeleton c ints σ1 e sk a Hsk1 Ha) as H.
    cbv zeta in H. specialize (Hstep a).
    destruct (prune_fn route self sk ints a e) as [a' evs]. cbn in Hstep. subst a'.
    by destruct H as (-> & _).
  - intros r r'.
    pose proof (remove_spurious_roads_run route self skeleton
                  (endpoints1 ++ e :: endpoints2) ints σ sk Hsk) as (_ & Hr & _).
    pose proof (remove_spurious_roads_run route self skeleton
                  (endpoints1 ++ endpoints2) ints σ sk Hsk) as (_ & Hr' & _).
    cbv zeta in Hr, Hr'. fold r in Hr. fold r' in Hr'.
    rewrite Hr, Hr'. split; [by eexists|]. f_equal.
    rewrite !clean_fn_array, !foldl_app. cbn [foldl]. by rewrite Hstep.
Qed.

Lemma pathfinding_failure_is_local_witness :
  target Scenario.cleaner Scenario.intersections (4, 2)%Z = Some (4, 4)%Z ∧
  Scenario.blocked_route (invert Scenario.skeleton) (2, 4)%Z (4, 4)%Z = None ∧
  Scenario.blocked_route (invert Scenario.skeleton) (5, 1)%Z (5, 3)%Z
    = Some [(5, 1); (5, 2); (5, 3)]%Z ∧
  let r := remove_spurious_roads Scenario.blocked_route Scenario.cleaner
             Scenario.skeleton_ref ([(1, 5)%Z] ++ (4, 2)%Z :: [(8, 5)%Z])
             Scenario.intersections Scenario.σ0 in
  let r' := remove_spurious_roads Scenario.blocked_route Scenario.cleaner
              Scenario.skeleton_ref ([(1, 5)%Z] ++ [(8, 5)%Z])
              Scenario.intersections Scenario.σ0 in
  (pixel Scenario.skeleton 1 5 = true ∧
   ∃ cleaned, heap r.2 !! r.1 = Some cleaned ∧ pixel cleaned 1 5 = false ∧
              pixel cleaned 4 2 = true) ∧
  is_Some (heap r.2 !! r.1) ∧ heap r.2 !! r.1 = heap r'.2 !! r'.1.
Proof.
  split; [reflexivity|]. split; [reflexivity|]. split; [reflexivity|].
  split; [split; [reflexivity|]; eexists; split_and!; reflexivity|].
  apply (pathfinding_failure_is_local Scenario.blocked_route Scenario.cleaner
           Scenario.skeleton_ref Scenario.intersections Scenario.σ0
           Scenario.skeleton [(1, 5)%Z] (4, 2)%Z [(8, 5)%Z]).
  - reflexivity.
  - intros t Ht.
    assert (t = (4, 4)%Z) as -> by (vm_compute in Ht; congruence).
    reflexivity.
Defined.

(** C9. Every foreground pixel of the cleaned raster is a foreground pixel
    of the skeleton. *)
Theorem cleaned_within_skeleton route self skeleton endpoints ints σ sk :
  heap σ !! skeleton = Some sk →
  let '(c, σ') := remove_spurious_roads route self skeleton endpoints ints σ in
  ∃ cleaned, heap σ' !! c = Some cleaned ∧
    ∀ x y, pixel cleaned x y = true → pixel sk x y = true.
Proof.
  intros Hsk.
  pose proof (remove_spurious_roads_run route self skeleton endpoints ints σ sk Hsk)
    as (_ & Hc & _).
  destruct (remove_spurious_roads _ _ _ _ _ _) as [c σ']. cbn in Hc.
  eexists. split; [done|]. apply clean_fn_below.
Qed.

Lemma cleaned_within_skeleton_witness :
  let '(c, σ') :=
    remove_spurious_roads Reference.route Scenario.cleaner Scenario.skeleton_ref
      Scenario.endpoints Scenario.intersections Scenario.σ0 in
  ∃ cleaned, heap σ' !! c = Some cleaned ∧
    ∀ x y, pixel cleaned x y = true → pixel Scenario.skeleton x y = true.
Proof.
  apply (cleaned_within_skeleton Reference.route Scenario.cleaner
           Scenario.skeleton_ref Scenario.endpoints Scenario.intersections
           Scenario.σ0 Scenario.skeleton).
  reflexivity.
Defined.



(** ** Walks on the skeleton *)

Section walks.
Implicit Types (cost : ndarray) (p q : list point) (s e c : point).

Lemma elem_of_cells a (c : point) :
  rect a →
  (0 ≤ c.1)%Z → (0 ≤ c.2)%Z → is_Some (a !! Z.to_nat c.1 ≫= (.!! Z.to_nat c.2)) →
  c ∈ cells a.
Proof.
  intros Hrect Hy Hx Hcell. unfold cells.
  destruct (a !! Z.to_nat c.1) as [row|] eqn:Hrow; [|by destruct Hcell].
  cbn in Hcell. apply lookup_lt_is_Some in Hcell.
  rewrite (rect_lookup _ _ _ Hrect Hrow) in Hcell.
  apply lookup_lt_Some in Hrow.
  apply list_elem_of_bind. exists c.1. split; [|apply elem_of_seqZ; unfold nrows; lia].
  apply list_elem_of_bind. exists c.2. split; [|apply elem_of_seqZ; lia].
  destruct c. by left.
Qed.

Lemma cost_free_cells cost c :
  rect cost → cost_free cost c = true → c ∈ free_cells cost.
Proof.
  intros Hrect Hfree. apply list_elem_of_filter. split; [done|].
  apply bool_decide_eq_true in Hfree as (Hy & Hx & Hcell).
  apply elem_of_cells; [done..|]. rewrite Hcell. by eexists.
Qed.

Lemma elem_of_foreground a x y :
  rect a → pixel a x y = true ↔ (x, y) ∈ foreground a.
Proof.
  intros Hrect. unfold foreground. rewrite list_elem_of_fmap. split.
  - intros Hpix. exists (y, x). split; [done|].
    apply list_elem_of_filter. split; [done|].
    unfold pixel in Hpix. case_decide as Hxy; [|done].
    apply elem_of_cells; cbn; [done|lia..|].
    destruct (a !! Z.to_nat y ≫= (.!! Z.to_nat x)); [by eexists|done].
  - intros ([cy cx] & [= -> ->] & [Hpix _]%list_elem_of_filter). done.
Qed.

Lemma free_walk_length cost s e p :
  rect cost → free_walk cost s e p → length p ≤ length (free_cells cost).
Proof.
  intros Hrect (_ & Hnodup & Hfree).
  apply submseteq_length, NoDup_submseteq; [done|].
  intros c Hc. apply cost_free_cells; [done|].
  rewrite Forall_forall in Hfree. by apply Hfree.
Qed.

(** [simple_walks] misses no simple walk. *)
Lemma simple_walks_complete cost fuel visited cur goal p :
  free_walk cost cur goal p →
  (∀ c, c ∈ p → c ∉ visited) →
  length p ≤ fuel →
  p ∈ simple_walks fuel cost visited cur goal.
Proof.
  revert visited cur p.
  induction fuel as [|fuel IH]; intros visited cur p
    ((Hhead & Hlast & Hstep) & Hnodup & Hfree) Hfresh Hlen.
  { destruct p; [done|cbn in Hlen; lia]. }
  destruct p as [|c rest]; [done|]. injection Hhead as ->.
  apply NoDup_cons in Hnodup as [Hcur Hnodup].
  apply Forall_cons in Hfree as [_ Hfree].
  cbn [simple_walks]. case_decide as Hgoal.
  - subst goal. destruct rest as [|n rest]; [left|].
    rewrite last_cons_cons in Hlast. by apply last_Some_elem_of in Hlast.
  - destruct rest as [|n rest]; [cbn in Hlast; congruence|].
    rewrite last_cons_cons in Hlast. destruct Hstep as [Hmove Hstep].
    apply list_elem_of_bind. exists n. split.
    + apply list_elem_of_fmap. exists (n :: rest). split; [done|].
      apply IH; [by split_and!| |cbn in *; lia].
      intros c Hc [-> |Hv]%elem_of_cons; [done|].
      apply (Hfresh c); [by right|done].
    + apply list_elem_of_filter. split; [|done]. split.
      * apply Forall_cons in Hfree as [? _]. done.
      * intros [-> |Hv]%elem_of_cons; [apply Hcur; left|].
        apply (Hfresh n); [right; left|done].
Qed.

(** When the skeleton offers a single simple walk between two cells, a
    pathfinder that follows the skeleton returns it. *)
Lemma unique_route route cost s e path :
  rect cost → follows_skeleton route cost →
  simple_walks (length (free_cells cost)) cost [] s e = [path] →
  free_walk cost s e path →
  route cost s e = Some path.
Proof.
  intros Hrect Hroute Hunique Hpath.
  destruct (Hroute s e path) as (p & -> & Hp); [apply Hpath..|].
  f_equal. apply list_elem_of_singleton. rewrite <- Hunique.
  apply simple_walks_complete; [done| |by eapply free_walk_length].
  by intros ? _ ?%elem_of_nil.
Qed.

Lemma prune_fn_array_known route self sk ints a e t path :
  target self ints e = Some t →
  route (invert sk) (e.2, e.1) (t.2, t.1) = Some path →
  (prune_fn route self sk ints a e).1 = (erase_fn self path a).1.1.
Proof.
  unfold prune_fn, get_path_fn. intros -> ->.
  by destruct (erase_fn self path a) as [[a' evs] o].
Qed.

(** On the scenario the depth-first pathfinder follows the skeleton. *)
Lemma reference_follows_skeleton :
  follows_skeleton Reference.route (invert Scenario.skeleton).
Proof.
  set (cost := invert Scenario.skeleton).
  assert (rect cost) as Hrect by (vm_compute; repeat constructor).
  assert (Forall (λ s, Forall (λ e, Reference.check cost s e = true)
                         (free_cells cost)) (free_cells cost)) as Hall.
  { apply (bool_decide_unpack _). by vm_compute. }
  intros s e q (Hhead & Hlast & _) Hfree.
  rewrite Forall_forall in Hfree.
  pose proof (cost_free_cells cost s Hrect
                (Hfree s (head_Some_elem_of _ _ Hhead))) as Hs.
  pose proof (cost_free_cells cost e Hrect
                (Hfree e (last_Some_elem_of _ _ Hlast))) as He.
  rewrite Forall_forall in Hall. specialize (Hall s Hs).
  rewrite Forall_forall in Hall. specialize (Hall e He).
  unfold Reference.check in Hall.
  destruct (Reference.route cost s e) as [p|]; [|done].
  exists p. split; [done|]. by apply bool_decide_eq_true in Hall.
Qed.

End walks.

(** C2, as amended.  On the 10 x 10 raster with the line from (1,5) to (8,5)
    and the stub from (4,5) to (4,2), the classification returns the
    endpoints (4,2), (1,5), (8,5) and the four intersections (4,4), (3,5),
    (4,5), (5,5): with 8-connectivity the three pixels around the junction
    have more than two neighbours as well.  Pruning with
    [min_road_length = 4] and a pathfinder that follows the skeleton erases
    the walk from each endpoint to its closest intersection, both ends
    included: (4,2)-(4,4), (1,5)-(3,5) and (8,5)-(5,5).  The cleaned raster
    keeps the single pixel (4,5). *)
Theorem scenario_pruned route skeleton σ :
  heap σ !! skeleton = Some Scenario.skeleton →
  follows_skeleton route (invert Scenario.skeleton) →
  find_network_points Scenario.cleaner Scenario.skeleton
    = Some (Scenario.endpoints, Scenario.intersections) ∧
  let '(c, σ') :=
    remove_spurious_roads route Scenario.cleaner skeleton
      Scenario.endpoints Scenario.intersections σ in
  heap σ' !! c = Some Scenario.cleaned ∧
  (∀ x y, pixel Scenario.cleaned x y = true ↔ (x, y) = (4, 5)%Z) ∧
  routed (trace σ') = routed (trace σ) ++ Scenario.endpoints.
Proof.
  intros Hsk Hroute. split; [reflexivity|].
  pose proof (remove_spurious_roads_run route Scenario.cleaner skeleton
                Scenario.endpoints Scenario.intersections σ Scenario.skeleton Hsk)
    as (_ & Hc & _ & Ht).
  destruct (remove_spurious_roads _ _ _ _ _ _) as [c σ']. cbn [fst snd] in Hc, Ht.
  assert (rect (invert Scenario.skeleton)) as Hrect
    by (vm_compute; repeat constructor).
  assert (∀ s e path,
            simple_walks (length (free_cells (invert Scenario.skeleton)))
              (invert Scenario.skeleton) [] s e = [path] →
            bool_decide (free_walk (invert Scenario.skeleton) s e path) = true →
            route (invert Scenario.skeleton) s e = Some path) as Hunique.
  { intros s e path Hone Hwalk%bool_decide_eq_true. by apply unique_route. }
  pose proof (Hunique (2, 4)%Z (4, 4)%Z [(2, 4); (3, 4); (4, 4)]%Z
                eq_refl eq_refl) as Hstub.
  pose proof (Hunique (5, 1)%Z (5, 3)%Z [(5, 1); (5, 2); (5, 3)]%Z
                eq_refl eq_refl) as Hwest.
  pose proof (Hunique (5, 8)%Z (5, 5)%Z [(5, 8); (5, 7); (5, 6); (5, 5)]%Z
                eq_refl eq_refl) as Heast.
  split_and!.
  - rewrite Hc. f_equal. rewrite clean_fn_array.
    unfold Scenario.endpoints. cbn [foldl].
    rewrite (prune_fn_array_known route Scenario.cleaner Scenario.skeleton
               Scenario.intersections _ (4, 2)%Z (4, 4)%Z _ eq_refl Hstub).
    rewrite (prune_fn_array_known route Scenario.cleaner Scenario.skeleton
               Scenario.intersections _ (1, 5)%Z (3, 5)%Z _ eq_refl Hwest).
    rewrite (prune_fn_array_known route Scenario.cleaner Scenario.skeleton
               Scenario.intersections _ (8, 5)%Z (5, 5)%Z _ eq_refl Heast).
    reflexivity.
  - intros x y. rewrite elem_of_foreground by (vm_compute; repeat constructor).
    change (foreground Scenario.cleaned) with [(4, 5)%Z].
    apply list_elem_of_singleton.
  - rewrite Ht, routed_app, clean_fn_routed. reflexivity.
Qed.

Lemma scenario_pruned_witness :
  let '(c, σ') :=
    remove_spurious_roads Reference.route Scenario.cleaner Scenario.skeleton_ref
      Scenario.endpoints Scenario.intersections Scenario.σ0 in
  heap σ' !! c = Some Scenario.cleaned ∧
  (∀ x y, pixel Scenario.cleaned x y = true ↔ (x, y) = (4, 5)%Z) ∧
  routed (trace σ') = routed (trace Scenario.σ0) ++ Scenario.endpoints.
Proof.
  apply (scenario_pruned Reference.route Scenario.skeleton_ref Scenario.σ0).
  - reflexivity.
  - exact reference_follows_skeleton.
Defined.

(** C2, as stated, fails: the classification of the scenario does not
    return the single intersection (4,5), and pruning with
    [min_road_length = 4] does not keep the main line: its pixel (1,5) is
    reset. *)
Lemma scenario_not_as_expected :
  ¬ (∃ endpoints intersections,
       find_network_points Scenario.cleaner Scenario.skeleton
         = Some (endpoints, intersections) ∧
       ∀ p, p ∈ intersections ↔ p = (4, 5)%Z) ∧
  (let '(c, σ') :=
     remove_spurious_roads Reference.route Scenario.cleaner Scenario.skeleton_ref
       Scenario.endpoints Scenario.intersections Scenario.σ0 in
   pixel (deref σ' c) 1 5 = false ∧ pixel Scenario.skeleton 1 5 = true).
Proof.
  split; [|by vm_compute].
  intros (endpoints & intersections & [= <- <-] & Honly).
  assert ((4, 4)%Z ∈ Scenario.intersections) as Hin by left.
  by apply Honly in Hin.
Qed.

(** ** Further properties of the analyzer *)

Section analyzer_edges.
Implicit Types (a : ndarray) (p : point).

Lemma nrows_pad a : nrows (pad a) = nrows a + 2.
Proof. unfold pad, nrows. cbn. rewrite length_app, length_fmap. cbn. lia. Qed.

Lemma for_each_raises {A S} (xs : list A) (body : A → S → option S) x s :
  x ∈ xs → (∀ s', body x s' = None) → for_each xs body s = None.
Proof.
  intros Hx Hfail. revert s.
  induction xs as [|x' xs IH]; intros s; [by apply elem_of_nil in Hx|].
  cbn. apply elem_of_cons in Hx as [<- |Hx]; [by rewrite Hfail|].
  destruct (body x' s); [by apply IH|done].
Qed.

Lemma getitem_pad_total a i j :
  rect a → i < nrows a + 2 → j < ncols a + 2 →
  is_Some (getitem (pad a) (Z.of_nat i) (Z.of_nat j)).
Proof. intros. rewrite getitem_pad by done. by eexists. Qed.

Lemma getitem_pad_row_out a i j :
  nrows a + 2 ≤ i → getitem (pad a) (Z.of_nat i) (Z.of_nat j) = None.
Proof.
  intros Hi. unfold getitem, norm_index. rewrite nrows_pad.
  by rewrite !decide_False by lia.
Qed.

Lemma getitem_pad_col_out a i j :
  rect a → i < nrows a + 2 → ncols a + 2 ≤ j →
  getitem (pad a) (Z.of_nat i) (Z.of_nat j) = None.
Proof.
  intros Hrect Hi Hj.
  destruct (pad_row a i Hrect Hi) as (r & Hr & Hlen & _).
  unfold getitem. rewrite nrows_pad, norm_index_nat by done. cbn.
  rewrite Hr. cbn. unfold norm_index. by rewrite !decide_False by lia.
Qed.

Lemma classify_pixel_raises padded y x acc :
  getitem padded (Z.of_nat y) (Z.of_nat x) = None →
  classify_pixel padded y x acc = None.
Proof. unfold classify_pixel. by intros ->. Qed.

Lemma classify_pixel_returns padded y x acc :
  is_Some (getitem padded (Z.of_nat y) (Z.of_nat x)) →
  is_Some (classify_pixel padded y x acc).
Proof.
  unfold classify_pixel. intros [v ->]. cbn.
  destruct v; [|by eexists]. repeat case_decide; by eexists.
Qed.

End analyzer_edges.

(** X1. When the classification raises.  For a rectangular raster of
    [H] rows and [W] columns and a cleaner with dimensions [h] and [w],
    [find_network_points] raises [IndexError] exactly when both loops run
    ([h >= 1] and [w >= 1]) and the scan leaves the padded array
    ([h > H + 1] or [w > W + 1]); one row or column too many is still
    read from the pad. *)
Theorem find_network_points_raises_iff self skeleton :
  rect skeleton →
  find_network_points self skeleton = None
  ↔ 1 ≤ height self ∧ 1 ≤ width self
    ∧ (nrows skeleton + 1 < height self ∨ ncols skeleton + 1 < width self).
Proof.
  intros Hrect. unfold find_network_points. split.
  - intros Hnone.
    destruct (decide (1 ≤ height self ∧ 1 ≤ width self
                      ∧ (nrows skeleton + 1 < height self
                         ∨ ncols skeleton + 1 < width self))) as [|Hok]; [done|].
    exfalso. apply eq_None_not_Some in Hnone. apply Hnone.
    apply for_each_total. intros y acc [Hy1 Hy2]%elem_of_seq.
    apply for_each_total. intros x acc' [Hx1 Hx2]%elem_of_seq.
    apply classify_pixel_returns, getitem_pad_total; [done|lia..].
  - intros (Hh & Hw & [Hrows|Hcols]).
    + apply (for_each_raises _ _ (nrows skeleton + 2)); [apply elem_of_seq; lia|].
      intros acc. apply (for_each_raises _ _ 1); [apply elem_of_seq; lia|].
      intros acc'. apply classify_pixel_raises, getitem_pad_row_out. lia.
    + apply (for_each_raises _ _ 1); [apply elem_of_seq; lia|].
      intros acc. apply (for_each_raises _ _ (ncols skeleton + 2));
        [apply elem_of_seq; lia|].
      intros acc'. apply classify_pixel_raises, getitem_pad_col_out; [done|lia..].
Qed.

Lemma find_network_points_raises_iff_witness :
  rect Scenario.skeleton ∧
  (find_network_points (set_dimensions Scenario.cleaner (pad (pad Scenario.skeleton)))
     Scenario.skeleton = None
   ↔ 1 ≤ 14 ∧ 1 ≤ 14 ∧ (10 + 1 < 14 ∨ 10 + 1 < 14)).
Proof.
  assert (rect Scenario.skeleton) as Hrect by (vm_compute; repeat constructor).
  split; [exact Hrect|].
  exact (find_network_points_raises_iff
           (set_dimensions Scenario.cleaner (pad (pad Scenario.skeleton)))
           Scenario.skeleton Hrect).
Defined.

(** X2. Whenever the classification returns, each of its two lists is
    strictly increasing in row-major scan order; in particular no
    coordinate is reported twice. *)
Theorem find_network_points_no_duplicates self skeleton endpoints intersections :
  find_network_points self skeleton = Some (endpoints, intersections) →
  StronglySorted scan_lt endpoints ∧ StronglySorted scan_lt intersections ∧
  NoDup endpoints ∧ NoDup intersections.
Proof.
  intros [He Hi]%find_network_points_sorted.
  assert (∀ l : list point, StronglySorted scan_lt l → NoDup l) as Hnodup.
  { induction 1 as [|p l _ IH Hall]; constructor; [|done].
    intros Hin. rewrite Forall_forall in Hall. specialize (Hall p Hin).
    unfold scan_lt in Hall. lia. }
  split_and!; auto.
Qed.

Lemma find_network_points_no_duplicates_witness :
  StronglySorted scan_lt Scenario.endpoints ∧
  StronglySorted scan_lt Scenario.intersections ∧
  NoDup Scenario.endpoints ∧ NoDup Scenario.intersections.
Proof.
  apply (find_network_points_no_duplicates Scenario.cleaner Scenario.skeleton).
  reflexivity.
Defined.

(** ** Further properties of the pruner *)

Section pruner_exact.
Context (route : ndarray → point → point → option (list point)).
Implicit Types (a sk : ndarray) (e t p : point) (evs : list event).

Lemma setitem_in_raster a py px v :
  rect a → in_raster a (py, px) → is_Some (setitem a py px v).
Proof.
  intros Hrect [Hy Hx]. cbn in Hy, Hx. unfold setitem, norm_index.
  rewrite decide_True by done. cbn.
  destruct (lookup_lt_is_Some_2 a (Z.to_nat py)) as [row Hrow];
    [unfold nrows in Hy; lia|].
  rewrite Hrow. cbn. rewrite (rect_lookup _ _ _ Hrect Hrow).
  rewrite decide_True by done. by eexists.
Qed.

Lemma in_raster_same_shape a b p : same_shape a b → in_raster a p → in_raster b p.
Proof.
  intros Hs. unfold in_raster.
  by rewrite (same_shape_nrows _ _ Hs), (same_shape_ncols _ _ Hs).
Qed.

Lemma bounds_check_fits self sk py px :
  fits self sk → bounds_check self py px = true ↔ in_raster sk (py, px).
Proof.
  intros (Hh & Hw & _). unfold bounds_check, in_raster. cbn.
  by rewrite bool_decide_eq_true, Hh, Hw.
Qed.

(** In an array of the cleaner's shape no assignment raises: the cells
    assigned are the in-range cells of the path, in order. *)
Lemma erase_fn_fits self sk path a :
  fits self sk → same_shape sk a →
  (erase_fn self path a).2 = Done ∧
  (erase_fn self path a).1.2
  = (λ p : point, Ev_setitem p.1 p.2) <$> filter (in_raster sk) path.
Proof.
  intros Hfits. revert a.
  induction path as [|[py px] rest IH]; intros a Hs; [done|].
  cbn [erase_fn]. rewrite filter_cons.
  destruct (bounds_check self py px) eqn:Hb.
  - apply (bounds_check_fits self sk) in Hb as Hin; [|done].
    rewrite decide_True by done.
    destruct (setitem_in_raster a py px false) as [a1 Ha1].
    { destruct Hfits as (_ & _ & Hrect). by eapply same_shape_rect. }
    { by eapply in_raster_same_shape. }
    rewrite Ha1. specialize (IH a1).
    destruct (erase_fn self rest a1) as [[a2 evs] o]. cbn in *.
    destruct IH as [-> ->]; [|done].
    eapply same_shape_trans; [done|by eapply setitem_same_shape].
  - rewrite decide_False; [by apply IH|].
    intros Hin. apply (bounds_check_fits self sk) in Hin; [|done]. congruence.
Qed.

Lemma assigned_setitems (path : list point) :
  assigned ((λ p : point, Ev_setitem p.1 p.2) <$> path) = path.
Proof.
  induction path as [|[py px] path IH]; [done|].
  cbn [fmap list_fmap]. cbn [fst snd]. by rewrite assigned_cons, IH.
Qed.

(** The cells that pruning one endpoint assigns. *)
Lemma prune_fn_assigned_fits self sk ints e c :
  fits self sk →
  c ∈ assigned (prune_fn route self sk ints sk e).2
  ↔ ∃ t path, target self ints e = Some t ∧
       route (invert sk) (e.2, e.1) (t.2, t.1) = Some path ∧
       c ∈ path ∧ in_raster sk c.
Proof.
  intros Hfits. unfold prune_fn.
  destruct (target self ints e) as [t|];
    [|split; [by intros ?%elem_of_nil|by intros (? & ? & ? & _)]].
  unfold get_path_fn.
  destruct (route (invert sk) (e.2, e.1) (t.2, t.1)) as [path|] eqn:Hroute.
  - pose proof (erase_fn_fits self sk path sk Hfits (same_shape_refl sk))
      as [Ho Hevs].
    destruct (erase_fn self path sk) as [[a' evs2] o]. cbn in Ho, Hevs. subst.
    cbn [snd]. rewrite !assigned_app, assigned_setitems.
    change (assigned [Ev_route (e.2, e.1) (t.2, t.1)]) with (@nil point).
    change (assigned []) with (@nil point). rewrite app_nil_r. cbn [app].
    rewrite list_elem_of_filter. split.
    + intros [? ?]. by exists t, path.
    + intros (t0 & path0 & [= <-] & Hroute' & ? & ?).
      rewrite Hroute in Hroute'. by injection Hroute' as <-.
  - cbn. split; [by intros ?%elem_of_nil|].
    intros (t0 & path0 & [= <-] & Hroute' & _). congruence.
Qed.

Lemma prune_fn_no_endpoint_warning self sk ints a e e' :
  fits self sk → same_shape sk a →
  Ev_print_endpoint e' ∉ (prune_fn route self sk ints a e).2.
Proof.
  intros Hfits Hs. unfold prune_fn.
  destruct (target self ints e) as [t|]; [|by intros ?%elem_of_nil].
  destruct (get_path_fn route sk e t) as [path evs1] eqn:Hget.
  pose proof (erase_fn_fits self sk path a Hfits Hs) as [Ho Hevs].
  destruct (erase_fn self path a) as [[a' evs2] o]. cbn in Ho, Hevs. subst.
  cbn [snd]. rewrite app_nil_r.
  intros [Hin|Hin]%elem_of_app.
  - unfold get_path_fn in Hget.
    destruct (route _ _ _); simplify_eq; set_solver.
  - apply list_elem_of_fmap in Hin as (? & ? & _). done.
Qed.

Lemma prune_fn_route_events self sk ints a e s t' :
  Ev_route s t' ∈ (prune_fn route self sk ints a e).2 →
  ∃ t, target self ints e = Some t ∧ s = (e.2, e.1) ∧ t' = (t.2, t.1).
Proof.
  unfold prune_fn.
  destruct (target self ints e) as [t|]; [|by intros ?%elem_of_nil].
  destruct (get_path_fn route sk e t) as [path evs1] eqn:Hget.
  pose proof (erase_fn_events self path a) as Hev.
  destruct (erase_fn self path a) as [[a' evs2] o]. cbn [fst snd] in *.
  intros [Hin|[Hin|Hin]%elem_of_app]%elem_of_app.
  - exists t. unfold get_path_fn in Hget.
    destruct (route _ _ _); simplify_eq.
    + apply list_elem_of_singleton in Hin. by simplify_eq.
    + apply elem_of_cons in Hin as [Hin|Hin]; [by simplify_eq|].
      by apply list_elem_of_singleton in Hin.
  - destruct (Hev _ Hin) as (? & ? & ? & _). done.
  - destruct o; [by apply elem_of_nil in Hin|].
    by apply list_elem_of_singleton in Hin.
Qed.

Lemma clean_fn_skips self sk ints endpoints :
  (∀ e, e ∈ endpoints → target self ints e = None) →
  clean_fn route self sk endpoints ints = (sk, []).
Proof.
  intros Hskip.
  rewrite (surjective_pairing (clean_fn route self sk endpoints ints)).
  apply (clean_fn_ind route self sk ints (λ a evs, (a, evs) = (sk, [])));
    [done|].
  intros a evs e He [= -> ->]. by rewrite prune_fn_skip by auto.
Qed.

(** Two arrays of one shape with the same pixels are equal. *)
Lemma ndarray_ext a b :
  same_shape a b → (∀ x y, pixel a x y = pixel b x y) → a = b.
Proof.
  intros Hs Hpix. apply list_eq. intros i.
  assert ((length <$> a) !! i = (length <$> b) !! i) as Hlen by (by rewrite Hs).
  rewrite !list_lookup_fmap in Hlen.
  destruct (a !! i) as [ra|] eqn:Ha, (b !! i) as [rb|] eqn:Hb; try done.
  cbn in Hlen. injection Hlen as Hlen. f_equal.
  apply list_eq. intros j.
  specialize (Hpix (Z.of_nat j) (Z.of_nat i)). unfold pixel in Hpix.
  rewrite !decide_True, !Nat2Z.id, Ha, Hb in Hpix by lia. cbn in Hpix.
  destruct (ra !! j) as [x|] eqn:Hx, (rb !! j) as [y|] eqn:Hy; cbn in Hpix.
  - by subst.
  - apply lookup_lt_Some in Hx. apply lookup_ge_None in Hy. lia.
  - apply lookup_lt_Some in Hy. apply lookup_ge_None in Hx. lia.
  - done.
Qed.

End pruner_exact.

Section pruner_exact_run.
Context (route : ndarray → point → point → option (list point)).
Implicit Types (a sk : ndarray) (e t p : point) (evs : list event).

(** What is left of a skeleton of the cleaner's shape. *)
Lemma clean_fn_pixel_fits self sk ints endpoints x y :
  fits self sk →
  pixel (clean_fn route self sk endpoints ints).1 x y = true
  ↔ pixel sk x y = true
    ∧ ∀ e t path, e ∈ endpoints → target self ints e = Some t →
        route (invert sk) (e.2, e.1) (t.2, t.1) = Some path → (y, x) ∉ path.
Proof.
  intros Hfits. rewrite clean_fn_pixel. split.
  - intros [Hpix Hkept]. split; [done|].
    intros e t path He Ht Hroute Hin. apply (Hkept e He).
    apply prune_fn_assigned_fits; [done|]. exists t, path. split_and!; [done..|].
    destruct Hfits as (_ & _ & Hrect).
    destruct (pixel_true_bounds _ _ _ Hrect Hpix). by split.
  - intros [Hpix Hkept]. split; [done|].
    intros e He (t & path & Ht & Hroute & Hin & _)%prune_fn_assigned_fits; [|done].
    by apply (Hkept e t path).
Qed.

Lemma clean_fn_events_fits self sk ints endpoints :
  fits self sk →
  ∀ e', Ev_print_endpoint e' ∉ (clean_fn route self sk endpoints ints).2.
Proof.
  intros Hfits.
  apply (clean_fn_ind route self sk ints
           (λ a evs, same_shape sk a ∧ ∀ e', Ev_print_endpoint e' ∉ evs)).
  - split; [done|]. by intros ? ?%elem_of_nil.
  - intros a evs e _ [Hs Hevs]. split.
    + eapply same_shape_trans; [done|apply prune_fn_below].
    + intros e' [Hin|Hin]%elem_of_app; [by apply (Hevs e')|].
      by apply prune_fn_no_endpoint_warning in Hin.
Qed.

Lemma clean_fn_route_events self sk ints endpoints s t' :
  Ev_route s t' ∈ (clean_fn route self sk endpoints ints).2 →
  ∃ e t, e ∈ endpoints ∧ target self ints e = Some t
         ∧ s = (e.2, e.1) ∧ t' = (t.2, t.1).
Proof.
  apply (clean_fn_ind route self sk ints
           (λ a evs, Ev_route s t' ∈ evs →
              ∃ e t, e ∈ endpoints ∧ target self ints e = Some t
                     ∧ s = (e.2, e.1) ∧ t' = (t.2, t.1))).
  - by intros ?%elem_of_nil.
  - intros a evs e He IH [Hin|Hin]%elem_of_app; [by apply IH|].
    apply prune_fn_route_events in Hin as (t & Ht & -> & ->). by exists e, t.
Qed.

End pruner_exact_run.

(** X3. The cleaned raster, exactly.  For a skeleton of the cleaner's
    shape, a pixel is foreground in the cleaned raster iff it is foreground
    in the skeleton and lies on none of the paths that the pathfinder
    returned for a pruned endpoint [e] (one with [target self ints e =
    Some t], its closest intersection being within [min_road_length]). *)
Theorem cleaned_raster_exact route self skeleton endpoints ints σ sk :
  fits self sk →
  heap σ !! skeleton = Some sk →
  let '(c, σ') := remove_spurious_roads route self skeleton endpoints ints σ in
  ∃ cleaned, heap σ' !! c = Some cleaned ∧
    ∀ x y, pixel cleaned x y = true
           ↔ pixel sk x y = true
             ∧ ∀ e t path, e ∈ endpoints → target self ints e = Some t →
                 route (invert sk) (e.2, e.1) (t.2, t.1) = Some path →
                 (y, x) ∉ path.
Proof.
  intros Hfits Hsk.
  pose proof (remove_spurious_roads_run route self skeleton endpoints ints σ sk Hsk)
    as (_ & Hc & _).
  destruct (remove_spurious_roads _ _ _ _ _ _) as [c σ']. cbn in Hc.
  eexists. split; [done|]. intros x y. by apply clean_fn_pixel_fits.
Qed.

Lemma cleaned_raster_exact_witness :
  fits Scenario.cleaner Scenario.skeleton ∧
  let '(c, σ') :=
    remove_spurious_roads Reference.route Scenario.cleaner Scenario.skeleton_ref
      Scenario.endpoints Scenario.intersections Scenario.σ0 in
  ∃ cleaned, heap σ' !! c = Some cleaned ∧
    ∀ x y, pixel cleaned x y = true
           ↔ pixel Scenario.skeleton x y = true
             ∧ ∀ e t path, e ∈ Scenario.endpoints →
                 target Scenario.cleaner Scenario.intersections e = Some t →
                 Reference.route (invert Scenario.skeleton) (e.2, e.1) (t.2, t.1)
                   = Some path →
                 (y, x) ∉ path.
Proof.
  assert (fits Scenario.cleaner Scenario.skeleton) as Hfits
    by (vm_compute; repeat constructor).
  split; [exact Hfits|].
  apply (cleaned_raster_exact Reference.route Scenario.cleaner
           Scenario.skeleton_ref Scenario.endpoints Scenario.intersections
           Scenario.σ0 Scenario.skeleton Hfits).
  reflexivity.
Defined.

(** X4. Pruning takes the junction with it.  For a skeleton of the
    cleaner's shape and a pruned endpoint [e] with chosen intersection
    [t]: if the returned path starts at [e], the endpoint pixel
    is background in the cleaned raster, and if it ends at [t], so is the
    intersection pixel. *)
Theorem pruned_path_ends_erased
    route self skeleton endpoints ints σ sk e t path :
  fits self sk →
  heap σ !! skeleton = Some sk →
  e ∈ endpoints →
  target self ints e = Some t →
  route (invert sk) (e.2, e.1) (t.2, t.1) = Some path →
  let '(c, σ') := remove_spurious_roads route self skeleton endpoints ints σ in
  ∃ cleaned, heap σ' !! c = Some cleaned ∧
    (head path = Some (e.2, e.1) → pixel cleaned e.1 e.2 = false) ∧
    (last path = Some (t.2, t.1) → pixel cleaned t.1 t.2 = false).
Proof.
  intros Hfits Hsk He Ht Hroute.
  pose proof (remove_spurious_roads_run route self skeleton endpoints ints σ sk Hsk)
    as (_ & Hc & _).
  destruct (remove_spurious_roads _ _ _ _ _ _) as [c σ']. cbn in Hc.
  eexists. split; [done|].
  assert (∀ x y, (y, x) ∈ path →
            pixel (clean_fn route self sk endpoints ints).1 x y = false) as Hoff.
  { intros x y Hin.
    destruct (pixel (clean_fn route self sk endpoints ints).1 x y) eqn:Hpix;
      [|done].
    apply clean_fn_pixel_fits in Hpix as [_ Hkept]; [|done].
    by destruct (Hkept e t path He Ht Hroute). }
  split; intros Hend; apply Hoff.
  - by apply head_Some_elem_of.
  - by apply last_Some_elem_of.
Qed.

Lemma pruned_path_ends_erased_witness :
  let '(c, σ') :=
    remove_spurious_roads Reference.route Scenario.cleaner Scenario.skeleton_ref
      Scenario.endpoints Scenario.intersections Scenario.σ0 in
  ∃ cleaned, heap σ' !! c = Some cleaned ∧
    (head [(2, 4); (3, 4); (4, 4)]%Z = Some (2, 4)%Z → pixel cleaned 4 2 = false) ∧
    (last [(2, 4); (3, 4); (4, 4)]%Z = Some (4, 4)%Z → pixel cleaned 4 4 = false).
Proof.
  apply (pruned_path_ends_erased Reference.route Scenario.cleaner
           Scenario.skeleton_ref Scenario.endpoints Scenario.intersections
           Scenario.σ0 Scenario.skeleton (4, 2)%Z (4, 4)%Z
           [(2, 4); (3, 4); (4, 4)]%Z).
  - vm_compute. repeat constructor.
  - reflexivity.
  - left.
  - reflexivity.
  - reflexivity.
Defined.

(** X5. The order of the endpoints does not matter, nor do repetitions:
    two endpoint lists with the same elements give the same cleaned
    raster (each path is searched on the skeleton, not on the raster
    cleaned so far). *)
Theorem endpoint_order_irrelevant route self skeleton endpoints endpoints' ints σ sk :
  heap σ !! skeleton = Some sk →
  (∀ e, e ∈ endpoints ↔ e ∈ endpoints') →
  let r := remove_spurious_roads route self skeleton endpoints ints σ in
  let r' := remove_spurious_roads route self skeleton endpoints' ints σ in
  is_Some (heap r.2 !! r.1) ∧ heap r.2 !! r.1 = heap r'.2 !! r'.1.
Proof.
  intros Hsk Hsame r r'.
  pose proof (remove_spurious_roads_run route self skeleton endpoints ints σ sk Hsk)
    as (_ & Hr & _).
  pose proof (remove_spurious_roads_run route self skeleton endpoints' ints σ sk Hsk)
    as (_ & Hr' & _).
  cbv zeta in Hr, Hr'. fold r in Hr. fold r' in Hr'. rewrite Hr, Hr'.
  split; [by eexists|]. f_equal. apply ndarray_ext.
  - eapply same_shape_trans; [|apply clean_fn_below].
    symmetry. apply clean_fn_below.
  - intros x y.
    pose proof (clean_fn_pixel route self sk ints endpoints x y) as H1.
    pose proof (clean_fn_pixel route self sk ints endpoints' x y) as H2.
    destruct (pixel (clean_fn route self sk endpoints ints).1 x y),
      (pixel (clean_fn route self sk endpoints' ints).1 x y); try done.
    + destruct H1 as [[Hp Hk] _]; [done|]. symmetry. apply H2.
      split; [done|]. intros e He. apply Hk. by apply Hsame.
    + destruct H2 as [[Hp Hk] _]; [done|]. apply H1.
      split; [done|]. intros e He. apply Hk. by apply Hsame.
Qed.

Lemma endpoint_order_irrelevant_witness :
  let r := remove_spurious_roads Reference.route Scenario.cleaner
             Scenario.skeleton_ref Scenario.endpoints Scenario.intersections
             Scenario.σ0 in
  let r' := remove_spurious_roads Reference.route Scenario.cleaner
              Scenario.skeleton_ref [(8, 5); (4, 2); (1, 5); (8, 5)]%Z
              Scenario.intersections Scenario.σ0 in
  is_Some (heap r.2 !! r.1) ∧ heap r.2 !! r.1 = heap r'.2 !! r'.1.
Proof.
  apply (endpoint_order_irrelevant Reference.route Scenario.cleaner
           Scenario.skeleton_ref Scenario.endpoints
           [(8, 5); (4, 2); (1, 5); (8, 5)]%Z Scenario.intersections
           Scenario.σ0 Scenario.skeleton).
  - reflexivity.
  - intros e. unfold Scenario.endpoints.
    rewrite !elem_of_cons, !elem_of_nil. tauto.
Defined.

(** X6. With a skeleton of the cleaner's shape no assignment raises:
    the warning "Could not process path for endpoint" is never printed. *)
Theorem no_endpoint_warning route self skeleton endpoints ints σ sk :
  fits self sk →
  heap σ !! skeleton = Some sk →
  ∃ evs,
    trace (remove_spurious_roads route self skeleton endpoints ints σ).2
    = trace σ ++ evs ∧
    ∀ e, Ev_print_endpoint e ∉ evs.
Proof.
  intros Hfits Hsk.
  pose proof (remove_spurious_roads_run route self skeleton endpoints ints σ sk Hsk)
    as (_ & _ & _ & Ht).
  eexists. split; [exact Ht|]. by apply clean_fn_events_fits.
Qed.

Lemma no_endpoint_warning_witness :
  ∃ evs,
    trace (remove_spurious_roads Reference.route Scenario.cleaner
             Scenario.skeleton_ref Scenario.endpoints Scenario.intersections
             Scenario.σ0).2
    = trace Scenario.σ0 ++ evs ∧
    ∀ e, Ev_print_endpoint e ∉ evs.
Proof.
  apply (no_endpoint_warning Reference.route Scenario.cleaner
           Scenario.skeleton_ref Scenario.endpoints Scenario.intersections
           Scenario.σ0 Scenario.skeleton).
  - vm_compute. repeat constructor.
  - reflexivity.
Defined.

(** X7. A threshold that is not positive switches pruning off: with
    [min_road_length <= 0] the cleaned raster equals the skeleton and
    nothing is added to the trace. *)
Theorem nonpositive_threshold_prunes_nothing
    route self skeleton endpoints ints σ sk :
  heap σ !! skeleton = Some sk →
  (min_road_length self ≤ 0)%Z →
  let '(c, σ') := remove_spurious_roads route self skeleton endpoints ints σ in
  heap σ' !! c = Some sk ∧ trace σ' = trace σ.
Proof.
  intros Hsk Hle.
  pose proof (remove_spurious_roads_run route self skeleton endpoints ints σ sk Hsk)
    as (_ & Hc & _ & Ht).
  destruct (remove_spurious_roads _ _ _ _ _ _) as [c σ']. cbn in Hc, Ht.
  rewrite clean_fn_skips in Hc, Ht.
  - by rewrite app_nil_r in Ht.
  - intros e _. apply target_None. intros i _. by left.
  - intros e _. apply target_None. intros i _. by left.
Qed.

Lemma nonpositive_threshold_prunes_nothing_witness :
  let '(c, σ') :=
    remove_spurious_roads Reference.route
      (with_min_road_length 0 Scenario.cleaner) Scenario.skeleton_ref
      Scenario.endpoints Scenario.intersections Scenario.σ0 in
  heap σ' !! c = Some Scenario.skeleton ∧ trace σ' = trace Scenario.σ0.
Proof.
  apply (nonpositive_threshold_prunes_nothing Reference.route
           (with_min_road_length 0 Scenario.cleaner) Scenario.skeleton_ref
           Scenario.endpoints Scenario.intersections Scenario.σ0
           Scenario.skeleton).
  - reflexivity.
  - reflexivity.
Defined.

(** X8. What the pathfinder is asked.  Every call made during pruning
    goes from a listed endpoint to the intersection chosen for it, which is
    in the list and closest to the endpoint, both swapped to [(y, x)]; the
    calls follow the order of the endpoints, at most one per endpoint. *)
Theorem pathfinder_requests route self skeleton endpoints ints σ sk :
  heap σ !! skeleton = Some sk →
  ∃ evs,
    trace (remove_spurious_roads route self skeleton endpoints ints σ).2
    = trace σ ++ evs ∧
    routed evs `sublist_of` endpoints ∧
    ∀ s t', Ev_route s t' ∈ evs →
      ∃ e t, e ∈ endpoints ∧ t ∈ ints ∧ s = (e.2, e.1) ∧ t' = (t.2, t.1) ∧
             (∀ j, j ∈ ints → sq_dist e t ≤ sq_dist e j)%Z ∧
             (sq_dist e t < min_road_length self * min_road_length self)%Z.
Proof.
  intros Hsk.
  pose proof (remove_spurious_roads_run route self skeleton endpoints ints σ sk Hsk)
    as (_ & _ & _ & Ht).
  eexists. split; [exact Ht|]. split.
  - rewrite clean_fn_routed. apply sublist_filter.
  - intros s t' (e & t & He & Htarget & -> & ->)%clean_fn_route_events.
    apply target_Some in Htarget as (_ & Hlt & l1 & l2 & -> & H1 & H2).
    exists e, t. split_and!; [done|set_solver|done..| |done].
    intros j [Hj|[-> |Hj]%elem_of_cons]%elem_of_app; [|lia|by apply H2].
    specialize (H1 _ Hj). lia.
Qed.

Lemma pathfinder_requests_witness :
  ∃ evs,
    trace (remove_spurious_roads Reference.route Scenario.cleaner
             Scenario.skeleton_ref Scenario.endpoints Scenario.intersections
             Scenario.σ0).2
    = trace Scenario.σ0 ++ evs ∧
    routed evs `sublist_of` Scenario.endpoints ∧
    ∀ s t', Ev_route s t' ∈ evs →
      ∃ e t, e ∈ Scenario.endpoints ∧ t ∈ Scenario.intersections ∧
             s = (e.2, e.1) ∧ t' = (t.2, t.1) ∧
             (∀ j, j ∈ Scenario.intersections → sq_dist e t ≤ sq_dist e j)%Z ∧
             (sq_dist e t < min_road_length Scenario.cleaner
                            * min_road_length Scenario.cleaner)%Z.
Proof.
  apply (pathfinder_requests Reference.route Scenario.cleaner
           Scenario.skeleton_ref Scenario.endpoints Scenario.intersections
           Scenario.σ0 Scenario.skeleton).
  reflexivity.
Defined.

(** ** The pipeline *)

Section image_lemmas.

Lemma shape2_lengths {A B} (a : list (list A)) (b : list (list B)) :
  length <$> a = length <$> b → shape2 a = shape2 b.
Proof.
  intros H. unfold shape2. f_equal.
  - by rewrite <- (length_fmap length a), H, length_fmap.
  - destruct a, b; cbn in *; congruence.
Qed.

Lemma rectangular_lengths {A B} (a : list (list A)) (b : list (list B)) :
  length <$> a = length <$> b → rectangular a → rectangular b.
Proof.
  intros H Ha. unfold rectangular. rewrite <- (shape2_lengths a b H).
  apply Forall_lookup. intros i r Hr.
  assert ((length <$> a) !! i = Some (length r)) as Hi
    by (by rewrite H, list_lookup_fmap, Hr).
  rewrite list_lookup_fmap in Hi.
  destruct (a !! i) as [r'|] eqn:Hr'; [|done]. cbn in Hi.
  pose proof (Forall_lookup_1 _ _ _ _ Ha Hr'). cbn in *. congruence.
Qed.

Lemma lengths_binarised thresh maxval (g : list (list Z)) :
  length <$> gt0 (threshold_binary thresh maxval g) = length <$> g.
Proof.
  unfold gt0, threshold_binary. rewrite <- !list_fmap_compose.
  apply list_fmap_ext. intros i r _. cbn. by rewrite !length_fmap.
Qed.

(** A pixel of the binarised image is foreground iff the value read is
    above the threshold. *)
Lemma pixel_binarised (g : list (list Z)) x y :
  pixel (gt0 (threshold_binary 127 255 g)) x y = true
  ↔ ∃ v, gray_at g x y = Some v ∧ (127 < v)%Z.
Proof.
  unfold pixel, gray_at, gt0, threshold_binary.
  case_decide; [|split; [done|by intros (? & ? & _)]].
  rewrite <- list_fmap_compose, list_lookup_fmap.
  destruct (g !! Z.to_nat y) as [row|]; cbn;
    [|split; [done|by intros (? & ? & _)]].
  rewrite <- list_fmap_compose, list_lookup_fmap.
  destruct (row !! Z.to_nat x) as [v|]; cbn;
    [|split; [done|by intros (? & ? & _)]].
  case_decide.
  - split; [|done]. intros _. by exists v.
  - split; [done|]. intros (? & [= <-] & ?). lia.
Qed.

End image_lemmas.

Section pipeline_props.
Context (route : ndarray → point → point → option (list point)).
Context (skeletonize : ndarray → ndarray).
Context (cvtColor_BGR2GRAY : list (list rgb) → list (list Z)).
Context (cvtColor_GRAY2RGB : list (list Z) → list (list rgb)).
Context (circle : list (list rgb) → point → Z → rgb → list (list rgb)).

(** Visualisation never returns an image: a new cleaner cannot classify,
    its [height] does not exist. *)
Lemma visualize_cleanup_raises original cleaned :
  (∃ e, visualize_cleanup cvtColor_GRAY2RGB circle original cleaned = Raise e) ∧
  (nonempty original → nonempty cleaned →
   visualize_cleanup cvtColor_GRAY2RGB circle original cleaned
   = Raise AttributeError).
Proof.
  unfold visualize_cleanup, cv2_cvtColor. split.
  - repeat case_decide; by eexists.
  - intros Ho Hc. rewrite decide_True by done.
    rewrite decide_True; [done|].
    destruct Hc as [Hh Hw]. split; cbn in *.
    + unfold times255. by rewrite length_fmap.
    + unfold times255. destruct cleaned; cbn in *; [done|].
      by rewrite length_fmap.
Qed.

Lemma skeleton_of_fits obj gray :
  (∀ a, same_shape a (skeletonize a)) →
  rectangular gray →
  fits (as_cleaner obj (shape2 gray).1 (shape2 gray).2)
    (skeleton_of skeletonize gray).
Proof.
  intros Hskel Hg. unfold skeleton_of.
  set (b := gt0 (threshold_binary 127 255 gray)).
  assert (length <$> b = length <$> gray) as Hb by apply lengths_binarised.
  assert (rect b) as Hrectb.
  { eapply (rectangular_lengths gray b); [by symmetry|done]. }
  pose proof (Hskel b) as Hs.
  assert (shape2 (skeletonize b) = shape2 gray) as Hdims.
  { apply shape2_lengths. unfold same_shape in Hs. congruence. }
  rewrite <- Hdims. split_and!; [done..|].
  by eapply same_shape_rect.
Qed.

(** The image that is binarised, for a sketch that has pixels. *)
Lemma grayscale_nonempty sketch_img :
  (∀ c, sketch_img = Color c → length <$> cvtColor_BGR2GRAY c = length <$> c) →
  sketch_rectangular sketch_img → sketch_nonempty sketch_img →
  ∃ gray, grayscale cvtColor_BGR2GRAY sketch_img = Ok gray ∧
          shape2 gray = sketch_shape sketch_img ∧
          rectangular gray ∧ nonempty gray.
Proof.
  intros Hcvt Hrect Hne. destruct sketch_img as [g|c]; cbn in *.
  - by exists g.
  - specialize (Hcvt c eq_refl). unfold cv2_cvtColor.
    rewrite decide_True by done.
    pose proof (shape2_lengths _ _ Hcvt) as Hshape.
    eexists. split_and!; [done..| |].
    + eapply rectangular_lengths; [|done]. by symmetry.
    + unfold nonempty. by rewrite Hshape.
Qed.

(** [process_sketch] runs to its end. *)
Lemma process_sketch_run obj sketch_img σ gray :
  (∀ a, same_shape a (skeletonize a)) →
  grayscale cvtColor_BGR2GRAY sketch_img = Ok gray →
  shape2 gray = sketch_shape sketch_img →
  rectangular gray → nonempty gray →
  let h := (sketch_shape sketch_img).1 in
  let w := (sketch_shape sketch_img).2 in
  let skeleton := (alloc (skeleton_of skeletonize gray) σ).1 in
  let σ1 := (alloc (skeleton_of skeletonize gray) σ).2 in
  ∃ endpoints ints,
    find_network_points (as_cleaner obj h w) (skeleton_of skeletonize gray)
      = Some (endpoints, ints) ∧
    process_sketch route skeletonize cvtColor_BGR2GRAY obj sketch_img σ
    = (with_dimensions obj h w,
       (remove_spurious_roads route (as_cleaner obj h w) skeleton endpoints ints
          σ1).2,
       Ok (remove_spurious_roads route (as_cleaner obj h w) skeleton endpoints
             ints σ1).1).
Proof.
  intros Hskel Hgray Hshape Hrect Hne h w skeleton σ1.
  pose proof (skeleton_of_fits obj gray Hskel Hrect) as Hfits.
  rewrite Hshape in Hfits. fold h w in Hfits.
  destruct (find_network_points_total _ _ Hfits) as [[endpoints ints] Hpoints].
  exists endpoints, ints. split; [done|].
  unfold process_sketch.
  rewrite (surjective_pairing (sketch_shape sketch_img)). fold h w.
  rewrite Hgray. unfold cv2_threshold. rewrite decide_True by done.
  fold (skeleton_of skeletonize gray).
  rewrite (surjective_pairing (alloc (skeleton_of skeletonize gray) σ)).
  fold skeleton σ1.
  assert (deref σ1 skeleton = skeleton_of skeletonize gray) as ->.
  { apply deref_Some. subst skeleton σ1. apply alloc_lookup. }
  unfold call_find_network_points. cbn [attr_height attr_width with_dimensions].
  assert (as_cleaner (with_dimensions obj h w) h w = as_cleaner obj h w) as ->
    by done.
  rewrite Hpoints.
  by destruct (remove_spurious_roads _ _ _ _ _ _) as [c σ'].
Qed.

(** What [process_sketch] returns, for a sketch that has pixels. *)
Lemma process_sketch_result obj sketch_img σ gray :
  (∀ a, same_shape a (skeletonize a)) →
  grayscale cvtColor_BGR2GRAY sketch_img = Ok gray →
  shape2 gray = sketch_shape sketch_img →
  rectangular gray → nonempty gray →
  let h := (sketch_shape sketch_img).1 in
  let w := (sketch_shape sketch_img).2 in
  ∃ σ' c cleaned,
    process_sketch route skeletonize cvtColor_BGR2GRAY obj sketch_img σ
    = (with_dimensions obj h w, σ', Ok c) ∧
    heap σ !! c = None ∧ heap σ' !! c = Some cleaned ∧
    nrows cleaned = h ∧ ncols cleaned = w ∧
    (∀ x y, pixel cleaned x y = true →
            pixel (skeleton_of skeletonize gray) x y = true) ∧
    (∀ l, is_Some (heap σ !! l) → heap σ' !! l = heap σ !! l).
Proof.
  intros Hskel Hgray Hshape Hrect Hne h w.
  destruct (process_sketch_run obj sketch_img σ gray Hskel Hgray Hshape Hrect Hne)
    as (endpoints & ints & Hpoints & ->).
  fold h w.
  set (sk := skeleton_of skeletonize gray).
  set (skeleton := (alloc sk σ).1). set (σ1 := (alloc sk σ).2).
  assert (heap σ1 !! skeleton = Some sk) as Hsk by apply alloc_lookup.
  assert (heap σ !! skeleton = None) as Hfresh by apply alloc_fresh.
  pose proof (remove_spurious_roads_run route (as_cleaner obj h w) skeleton
                endpoints ints σ1 sk Hsk) as (Hc0 & Hc & Hframe & _).
  cbv zeta in Hc0, Hc, Hframe.
  set (r := remove_spurious_roads route (as_cleaner obj h w) skeleton endpoints
              ints σ1) in *.
  assert (∀ l, l ≠ skeleton → heap σ1 !! l = heap σ !! l) as Hσ1.
  { intros l Hl. subst σ1. cbn. by rewrite lookup_insert_ne. }
  destruct (clean_fn_below route (as_cleaner obj h w) sk ints endpoints)
    as [Hsame Hsub].
  pose proof (skeleton_of_fits obj gray Hskel Hrect) as (Hh & Hw & _).
  rewrite Hshape in Hh, Hw. cbn in Hh, Hw. fold h w sk in Hh, Hw.
  exists r.2, r.1, (clean_fn route (as_cleaner obj h w) sk endpoints ints).1.
  split_and!; [done| |done| | |done|].
  - rewrite <- Hσ1; [done|]. intros Heq. rewrite Heq in Hc0. congruence.
  - by rewrite <- (same_shape_nrows _ _ Hsame).
  - by rewrite <- (same_shape_ncols _ _ Hsame).
  - intros l Hl.
    assert (l ≠ skeleton) as Hne' by (intros ->; rewrite Hfresh in Hl; by destruct Hl).
    rewrite Hframe by (by rewrite Hσ1). by apply Hσ1.
Qed.

(** A single-channel image without pixels: [cv2.threshold] hands back
    [None], and [binary > 0] raises once the dimensions are set. *)
Lemma process_sketch_empty obj img σ :
  ¬ nonempty img →
  process_sketch route skeletonize cvtColor_BGR2GRAY obj (Gray img) σ
  = (with_dimensions obj (shape2 img).1 (shape2 img).2, σ, Raise TypeError).
Proof.
  intros Hempty. unfold process_sketch, cv2_threshold. cbn.
  by rewrite decide_False by done.
Qed.

End pipeline_props.

(** X9. [process_sketch], end to end.  With a skeletonisation that keeps
    the shape and only removes pixels, and a grey conversion that keeps the
    shape, [process_sketch] on a rectangular image that has pixels returns:
    the cleaner's [height] and [width] are then those of the image, the
    result is a newly allocated raster of that height and width, every
    pixel left in it is one whose grey value exceeds 127, and the arrays
    that existed before are unchanged. *)
Theorem process_sketch_cleans
    route skeletonize cvtColor_BGR2GRAY obj sketch_img σ :
  (∀ a, same_shape a (skeletonize a)) →
  (∀ a x y, pixel (skeletonize a) x y = true → pixel a x y = true) →
  (∀ c, length <$> cvtColor_BGR2GRAY c = length <$> c) →
  sketch_rectangular sketch_img →
  sketch_nonempty sketch_img →
  let h := (sketch_shape sketch_img).1 in
  let w := (sketch_shape sketch_img).2 in
  ∃ gray σ' c cleaned,
    grayscale cvtColor_BGR2GRAY sketch_img = Ok gray ∧
    process_sketch route skeletonize cvtColor_BGR2GRAY obj sketch_img σ
    = (with_dimensions obj h w, σ', Ok c) ∧
    heap σ !! c = None ∧ heap σ' !! c = Some cleaned ∧
    nrows cleaned = h ∧ ncols cleaned = w ∧
    (∀ x y, pixel cleaned x y = true →
       ∃ v, gray_at gray x y = Some v ∧ (127 < v)%Z) ∧
    (∀ l, is_Some (heap σ !! l) → heap σ' !! l = heap σ !! l).
Proof.
  intros Hskel Hthin Hcvt Hrect Hne h w.
  destruct (grayscale_nonempty cvtColor_BGR2GRAY sketch_img (λ c _, Hcvt c)
              Hrect Hne) as (gray & Hgray & Hshape & Hrectg & Hneg).
  destruct (process_sketch_result route skeletonize cvtColor_BGR2GRAY obj
              sketch_img σ gray Hskel Hgray Hshape Hrectg Hneg)
    as (σ' & c & cleaned & Hrun & Hfresh & Hc & Hh & Hw & Hsub & Hframe).
  exists gray, σ', c, cleaned. split_and!; [done..| |done].
  intros x y Hpix. apply pixel_binarised. apply Hthin. by apply Hsub.
Qed.

Lemma process_sketch_cleans_witness :
  ∃ gray σ' c cleaned,
    grayscale Standin.cvtColor_BGR2GRAY (Gray Standin.sketch) = Ok gray ∧
    process_sketch Reference.route Standin.skeletonize Standin.cvtColor_BGR2GRAY
      new_cleaner (Gray Standin.sketch) Scenario.σ0
    = (with_dimensions new_cleaner 10 10, σ', Ok c) ∧
    heap Scenario.σ0 !! c = None ∧ heap σ' !! c = Some cleaned ∧
    nrows cleaned = 10 ∧ ncols cleaned = 10 ∧
    (∀ x y, pixel cleaned x y = true →
       ∃ v, gray_at gray x y = Some v ∧ (127 < v)%Z) ∧
    (∀ l, is_Some (heap Scenario.σ0 !! l) → heap σ' !! l = heap Scenario.σ0 !! l).
Proof.
  apply (process_sketch_cleans Reference.route Standin.skeletonize
           Standin.cvtColor_BGR2GRAY new_cleaner (Gray Standin.sketch)
           Scenario.σ0).
  - intros a. reflexivity.
  - intros a x y H. exact H.
  - intros c. unfold Standin.cvtColor_BGR2GRAY.
    rewrite <- list_fmap_compose. apply list_fmap_ext. intros i r _. cbn.
    apply length_fmap.
  - vm_compute. repeat constructor.
  - vm_compute. split; lia.
Defined.

(** X10. The script never gets to its output.  Whatever the library
    routines do, [process_road_sketch] raises and [cv2.imwrite] is not
    called: [ValueError] for an unreadable file; otherwise, for the
    rectangular image with pixels that [cv2.imread] returns and a
    skeletonisation that keeps the shape, the cleaning runs to its end and
    [visualize_cleanup] then raises [AttributeError], because it classifies
    with a new cleaner whose [height] was never set.  [main] therefore
    always ends on the error message. *)
Theorem process_road_sketch_never_completes
    route skeletonize cvtColor_BGR2GRAY cvtColor_GRAY2RGB circle sketch σ :
  let run := process_road_sketch route skeletonize cvtColor_BGR2GRAY
               cvtColor_GRAY2RGB circle sketch σ in
  let top := main route skeletonize cvtColor_BGR2GRAY cvtColor_GRAY2RGB circle
               sketch σ in
  (∃ e, run.2 = Raise e) ∧
  (∀ img, Act_imwrite img ∉ run.1.2) ∧
  (sketch = None → run = (σ, [], Raise ValueError)) ∧
  (∀ img, sketch = Some img → rectangular img → nonempty img →
     (∀ a, same_shape a (skeletonize a)) →
     run.2 = Raise AttributeError ∧
     run.1.1 = (process_sketch route skeletonize cvtColor_BGR2GRAY new_cleaner
                  (Gray img) σ).1.2 ∧
     ∃ c, (process_sketch route skeletonize cvtColor_BGR2GRAY new_cleaner
             (Gray img) σ).2 = Ok c) ∧
  (∃ e, last top.2 = Some (Act_print_error e)) ∧
  (Act_print_complete ∉ top.2) ∧
  (∀ img, Act_imwrite img ∉ top.2).
Proof.
  intros run top.
  assert (∃ acts e, run = ((run.1.1, acts), Raise e)
                    ∧ (acts = [] ∨ ∃ h w, acts = [Act_print_size h w]))
    as (acts & e & Hrun & Hacts).
  { subst run. unfold process_road_sketch. destruct sketch as [img|].
    - destruct (process_sketch _ _ _ _ _ _) as [[obj σ'] [c|e]]; cbn.
      + destruct (visualize_cleanup_raises cvtColor_GRAY2RGB circle img
                    (deref σ' c)) as [[e ->] _].
        eexists _, _. split; [done|]. right. by eexists _, _.
      + eexists _, _. split; [done|]. right. by eexists _, _.
    - eexists _, _. split; [done|]. by left. }
  assert (top = (run.1.1, acts ++ [Act_print_error e])) as Htop.
  { subst top. unfold main. fold run. by rewrite Hrun. }
  assert (∀ a, a ∈ acts → ∃ h w, a = Act_print_size h w) as Hsize.
  { intros a Ha. destruct Hacts as [-> |(h & w & ->)].
    - by apply elem_of_nil in Ha.
    - apply list_elem_of_singleton in Ha. by exists h, w. }
  split_and!.
  - exists e. by rewrite Hrun.
  - rewrite Hrun. cbn. intros img (? & ? & ?)%Hsize. done.
  - by intros ->.
  - intros img -> Himg Hne Hskel.
    destruct (process_sketch_result route skeletonize cvtColor_BGR2GRAY
                new_cleaner (Gray img) σ img Hskel eq_refl eq_refl Himg Hne)
      as (σ' & c & cleaned & Hps & _ & Hc & Hh & Hw & _).
    assert (nonempty (deref σ' c)) as Hnec.
    { rewrite (deref_Some _ _ _ Hc). destruct Hne. split; cbn in *.
      - unfold nrows in Hh. by rewrite Hh.
      - unfold ncols in Hw. by rewrite Hw. }
    pose proof (proj2 (visualize_cleanup_raises cvtColor_GRAY2RGB circle img
                         (deref σ' c)) Hne Hnec) as Hvis.
    subst run. unfold process_road_sketch. rewrite Hps, Hvis.
    cbn. split_and!; [done..|by eexists].
  - exists e. rewrite Htop. cbn [snd]. apply last_snoc.
  - rewrite Htop. cbn. intros [(? & ? & ?)%Hsize|Hin]%elem_of_app; [done|].
    by apply list_elem_of_singleton in Hin.
  - rewrite Htop. cbn.
    intros img [(? & ? & ?)%Hsize|Hin]%elem_of_app; [done|].
    by apply list_elem_of_singleton in Hin.
Qed.

Lemma process_road_sketch_never_completes_witness :
  rectangular Standin.sketch ∧ nonempty Standin.sketch ∧
  (∀ a, same_shape a (Standin.skeletonize a)) ∧
  let run := process_road_sketch Reference.route Standin.skeletonize
               Standin.cvtColor_BGR2GRAY Standin.cvtColor_GRAY2RGB Standin.circle
               (Some Standin.sketch) Scenario.σ0 in
  run.2 = Raise AttributeError ∧
  run.1.1 = (process_sketch Reference.route Standin.skeletonize
               Standin.cvtColor_BGR2GRAY new_cleaner (Gray Standin.sketch)
               Scenario.σ0).1.2 ∧
  ∃ c, (process_sketch Reference.route Standin.skeletonize
          Standin.cvtColor_BGR2GRAY new_cleaner (Gray Standin.sketch)
          Scenario.σ0).2 = Ok c.
Proof.
  assert (rectangular Standin.sketch) as Hrect by (vm_compute; repeat constructor).
  assert (nonempty Standin.sketch) as Hne by (vm_compute; split; lia).
  assert (∀ a, same_shape a (Standin.skeletonize a)) as Hskel by done.
  split_and!; [exact Hrect|exact Hne|exact Hskel|].
  exact (proj1 (proj2 (proj2 (proj2
           (process_road_sketch_never_completes Reference.route
              Standin.skeletonize Standin.cvtColor_BGR2GRAY
              Standin.cvtColor_GRAY2RGB Standin.circle (Some Standin.sketch)
              Scenario.σ0))))
           Standin.sketch eq_refl Hrect Hne Hskel).
Defined.
